(** * Lifeasee-server: the per-connection speech relay of [index.js]

    A shallow embedding of the WebSocket handlers of [index.js]: the
    registry [clientStreams], the helpers [startRecognitionStream] and
    [stopRecognitionStream], and the listeners installed on each connection,
    on its recognition stream and on each ffmpeg command.

    Every listener runs to completion on the single JavaScript thread, so a
    listener is a function from the server state to the next state together
    with the list of effects it performed on its collaborators, in program
    order. *)

From Stdlib Require Import SpecFloat.
From stdpp Require Import gmap strings list fin_maps.

Open Scope string_scope.
Open Scope list_scope.
Set Warnings "-register-all".

(** ** Values *)

(** Object identities: a [conn] is one [ws] object handed to the
    ["connection"] listener; a [handle] is a stream returned by
    [speechClient.streamingRecognize] or a command built by [ffmpeg(...)]. *)
Definition conn := nat.
Definition handle := nat.

(** What [JSON.parse] can return.  A number is an IEEE 754 double; an object
    is given by its own properties. *)
Inductive jsvalue :=
| JNull
| JBool (b : bool)
| JNum (x : spec_float)
| JStr (s : string)
| JArr (l : list jsvalue)
| JObj (kv : list (string * jsvalue)).

(** [JSON.parse(message.toString())] either throws a [SyntaxError] or returns
    a value; a message is represented by that outcome. *)
Inductive parsed :=
| SyntaxError
| Value (v : jsvalue).

(** JavaScript truthiness of a parsed value: [null], [false], [0], [-0],
    [NaN] and the empty string are falsy. *)
Definition truthy (v : jsvalue) : bool :=
  match v with
  | JNull => false
  | JBool b => b
  | JNum (S754_zero _) => false
  | JNum S754_nan => false
  | JNum _ => true
  | JStr s => negb (String.eqb s EmptyString)
  | JArr _ => true
  | JObj _ => true
  end.

(** The outcome of an expression that may throw. *)
Inductive completion (A : Type) :=
| Normal (a : A)
| Throw.
Arguments Normal {A} a.
Arguments Throw {A}.

Fixpoint own_property (k : string) (kv : list (string * jsvalue)) : option jsvalue :=
  match kv with
  | [] => None
  | (k', v) :: kv' => if String.eqb k k' then Some v else own_property k kv'
  end.

(** Property access [v.k] for the two keys the router reads, ["type"] and
    ["data"]: neither is a property of a string, an array, a number or a
    boolean, nor of [Object.prototype]; [None] is [undefined].  Reading a
    property of [null] throws a [TypeError]. *)
Definition member (k : string) (v : jsvalue) : completion (option jsvalue) :=
  match v with
  | JNull => Throw
  | JObj kv => Normal (own_property k kv)
  | _ => Normal None
  end.

(** [x === "lit"] for a possibly undefined [x]. *)
Definition strict_eq_string (x : option jsvalue) (lit : string) : bool :=
  match x with
  | Some (JStr s) => String.eqb s lit
  | _ => false
  end.

(** Truthiness of a possibly undefined value. *)
Definition truthy' (x : option jsvalue) : bool :=
  match x with
  | Some v => truthy v
  | None => false
  end.

(** ** Collaborator data *)

(** One entry of a streaming response of the recognition service. *)
Record alternative := { transcript : string }.
Record result := { alternatives : list alternative; isFinal : bool }.
Record response := { results : list result }.

(** [requestConfig], the constant passed to every [streamingRecognize]. *)
Record recognitionConfig := {
  encoding : string;
  sampleRateHertz : N;
  languageCode : string;
  model : string;
  useEnhanced : bool;
  speechContexts : list (list string);
  enableWordTimeOffsets : bool;
  enableAutomaticPunctuation : bool
}.
Record request := { config : recognitionConfig; interimResults : bool }.

Definition requestConfig : request :=
  {| config :=
       {| encoding := "LINEAR16";
          sampleRateHertz := 16000%N;
          languageCode := "en-US";
          model := "default";
          useEnhanced := true;
          speechContexts :=
            [["specific"; "terms"; "related"; "to"; "your"; "application"]];
          enableWordTimeOffsets := true;
          enableAutomaticPunctuation := true |};
     interimResults := true |}.

(** What is sent to the client: [JSON.stringify({ transcript, isFinal })] or
    [JSON.stringify({ error })], kept as the object that is serialised. *)
Inductive envelope :=
| Transcript (text : string) (final : bool)
| ErrorNotice (error : string).

Section Relay.

(** [Buffer.from(data, "base64")] is Node's: [buffer] is what it returns and
    [Buffer_from] its outcome on a parsed value, [None] when it throws (it
    does on a number).  Nothing below depends on how it decodes. *)
Context {buffer : Type} (Buffer_from : jsvalue → option buffer).

(** The command built for one chunk: [ffmpeg(inputStream)] with the chunk's
    buffer written to [inputStream], [.inputFormat(..)],
    [.outputOptions([..])], and [.pipe(target, { end })]. *)
Record ffmpegCommand := {
  input : buffer;
  inputFormat : string;
  outputOptions : list string;
  pipe_target : handle;
  pipe_end : bool
}.

(** The lines written to the console, without the [[clientId]] prefix
    ([ws.clientId] is set from the clock on the first message and is only
    ever printed). *)
Inductive line :=
| ClientConnected
| StartingRecognizeStream
| SpeechApiError (err : string)
| CannotSendTranscription
| RecognizeStreamEnded
| DestroyingRecognizeStream
| KillingFfmpeg
| NoActiveStream
| InvalidJson
| NoStreamFound
| FailedToGetStream
| ReceivedChunk (audioBuffer : buffer)
| First16Bytes (audioBuffer : buffer)
| KillingPreviousFfmpeg
| AttemptingRawPcm
| FfmpegStart (cmd : string)
| FfmpegError (msg : string)
| FfmpegStderr (stderr : string)
| FfmpegFinished
| ErrorProcessingChunk
| ReceivedEndAudio
| UnknownMessageType (type : option jsvalue)
| ConnectionClosed (code : nat) (reason : option string)
| WebSocketError (err : string).

(** The effects a listener has on the outside, in the order it performs
    them. *)
Inductive action :=
| console (l : line)
| streamingRecognize (ws : conn) (h : handle) (req : request)
| destroy (h : handle)
| spawn (ws : conn) (h : handle) (cmd : ffmpegCommand)
| kill (h : handle) (signal : string)
| send (ws : conn) (e : envelope)
| uncaught_TypeError.

(** ** Server state *)

(** A value of the map [clientStreams]. *)
Record clientData := {
  recognizeStream : option handle;
  ffmpegProcess : option handle
}.

(** [clientStreams] is the module-level [Map]; [OPEN] is the set of sockets
    whose [readyState] is [WebSocket.OPEN]; [fresh] is the identity of the
    next object created.  The closure variable [recognizeStream] of a
    connection is written by [startRecognitionStream] and read only on its
    next line, and the closure variable [ffmpegProcess] is never assigned, so
    neither is state. *)
Record server := {
  clientStreams : gmap conn clientData;
  OPEN : gset conn;
  fresh : handle
}.

Definition initial : server :=
  {| clientStreams := ∅; OPEN := ∅; fresh := 0 |}.

Definition set_clientStreams (m : gmap conn clientData) (s : server) : server :=
  {| clientStreams := m; OPEN := OPEN s; fresh := fresh s |}.

(** A listener: the next state and the effects performed. *)
Definition listener := server → server * list action.

(** ** The two helpers *)

Definition startRecognitionStream (ws : conn) : listener := fun s =>
  let recognizeStream := fresh s in
  ({| clientStreams :=
        <[ws := {| recognizeStream := Some recognizeStream;
                   ffmpegProcess := None |}]> (clientStreams s);
      OPEN := OPEN s;
      fresh := S (fresh s) |},
   [console StartingRecognizeStream;
    streamingRecognize ws recognizeStream requestConfig]).

Definition stopRecognitionStream (ws : conn) : listener := fun s =>
  match clientStreams s !! ws with
  | Some clientData =>
      (set_clientStreams (delete ws (clientStreams s)) s,
       match recognizeStream clientData with
       | Some r => [console DestroyingRecognizeStream; destroy r]
       | None => []
       end ++
       match ffmpegProcess clientData with
       | Some f => [console KillingFfmpeg; kill f "SIGKILL"]
       | None => []
       end)
  | None => (s, [console NoActiveStream])
  end.

(** ** The message listener *)

(** The fixed output options of the conversion. *)
Definition pcm_options : list string :=
  ["-acodec pcm_s16le"; "-ar 16000"; "-ac 1"; "-f s16le"].

(** The body of the [audio_chunk] branch. *)
Definition audio_chunk (ws : conn) (data : jsvalue) : listener := fun s =>
  let '(s1, started) :=
    match clientStreams s !! ws with
    | Some {| recognizeStream := Some _ |} => (s, [])
    | _ =>
        let '(s', acts) := startRecognitionStream ws s in
        (s', console NoStreamFound :: acts)
    end in
  match clientStreams s1 !! ws with
  | Some {| recognizeStream := Some r; ffmpegProcess := previous |} =>
      match Buffer_from data with
      | Some audioBuffer =>
          let ffmpegCommand := fresh s1 in
          ({| clientStreams :=
                <[ws := {| recognizeStream := Some r;
                           ffmpegProcess := Some ffmpegCommand |}]>
                  (clientStreams s1);
              OPEN := OPEN s1;
              fresh := S (fresh s1) |},
           started ++
           [console (ReceivedChunk audioBuffer);
            console (First16Bytes audioBuffer)] ++
           match previous with
           | Some p => [console KillingPreviousFfmpeg; kill p "SIGKILL"]
           | None => []
           end ++
           [console AttemptingRawPcm;
            spawn ws ffmpegCommand
              {| input := audioBuffer;
                 inputFormat := "3gp";
                 outputOptions := pcm_options;
                 pipe_target := r;
                 pipe_end := false |}])
      | None => (s1, started ++ [console ErrorProcessingChunk])
      end
  | _ => (s1, started ++ [console FailedToGetStream])
  end.

(** The guard [parsedMessage.type === "audio_chunk" && parsedMessage.data]:
    the payload when the guard holds, [None] when it does not. *)
Definition chunk_payload (type : option jsvalue) (parsedMessage : jsvalue)
  : completion (option jsvalue) :=
  if strict_eq_string type "audio_chunk" then
    match member "data" parsedMessage with
    | Normal (Some data) => Normal (if truthy data then Some data else None)
    | Normal None => Normal None
    | Throw => Throw
    end
  else Normal None.

Definition on_message (ws : conn) (message : parsed) : listener := fun s =>
  match message with
  | SyntaxError => (s, [console InvalidJson])
  | Value parsedMessage =>
      match member "type" parsedMessage with
      | Throw => (s, [uncaught_TypeError])
      | Normal type =>
          match chunk_payload type parsedMessage with
          | Throw => (s, [uncaught_TypeError])
          | Normal (Some data) => audio_chunk ws data s
          | Normal None =>
              if strict_eq_string type "end_audio"
              then (s, [console ReceivedEndAudio])
              else (s, [console (UnknownMessageType type)])
          end
      end
  end.

(** ** The other listeners *)

(** [wss.on("connection")]: only the greeting; the listeners it installs are
    the definitions of this section. *)
Definition on_connection (ws : conn) : listener := fun s =>
  (s, [console ClientConnected]).

Definition on_close (ws : conn) (code : nat) (reason : option string)
  : listener := fun s =>
  let '(s', acts) := stopRecognitionStream ws s in
  (s', console (ConnectionClosed code reason) :: acts).

Definition on_error (ws : conn) (err : string) : listener := fun s =>
  let '(s', acts) := stopRecognitionStream ws s in
  (s', console (WebSocketError err) :: acts).

(** Listeners of the recognition stream. *)
Definition recognize_on_error (ws : conn) (err : string) : listener := fun s =>
  let '(s', acts) := stopRecognitionStream ws s in
  (s',
   console (SpeechApiError err) :: acts ++
   if bool_decide (ws ∈ OPEN s')
   then [send ws (ErrorNotice (String.append "Google Speech API Error: " err))]
   else []).

Definition recognize_on_data (ws : conn) (data : response) : listener := fun s =>
  match results data with
  | {| alternatives := a :: _; isFinal := isFinal |} :: _ =>
      if bool_decide (ws ∈ OPEN s)
      then (s, [send ws (Transcript (transcript a) isFinal)])
      else
        let '(s', acts) := stopRecognitionStream ws s in
        (s', console CannotSendTranscription :: acts)
  | _ => (s, [])
  end.

Definition recognize_on_end (ws : conn) : listener := fun s =>
  (s, [console RecognizeStreamEnded]).

(** Listeners of an ffmpeg command. *)
Definition ffmpeg_on_start (cmd : string) : listener := fun s =>
  (s, [console (FfmpegStart cmd)]).

Definition ffmpeg_on_error (msg stderr : string) : listener := fun s =>
  (s, [console (FfmpegError msg); console (FfmpegStderr stderr)]).

Definition ffmpeg_on_end : listener := fun s =>
  (s, [console FfmpegFinished]).

(** ** Events and runs *)

(** What the event loop delivers.  The events of a recognition stream and of
    an ffmpeg command name the connection whose listener closure they run
    in; the ffmpeg events also name the command that emitted them. *)
Inductive event :=
| connection (ws : conn)
| message (ws : conn) (m : parsed)
| close (ws : conn) (code : nat) (reason : option string)
| error (ws : conn) (err : string)
| recognize_error (ws : conn) (err : string)
| recognize_data (ws : conn) (data : response)
| recognize_end (ws : conn)
| ffmpeg_start (ws : conn) (h : handle) (cmd : string)
| ffmpeg_error (ws : conn) (h : handle) (msg stderr : string)
| ffmpeg_end (ws : conn) (h : handle).

(** The [readyState] of the sockets, as far as the events tell it: a socket
    is [OPEN] when it is handed to the ["connection"] listener and is not
    [OPEN] any more when ["close"] or ["error"] is emitted.  The [ws] library
    can take a socket out of [OPEN] earlier, before it emits the event; that
    moment is not an event here.  A statement that needs a socket to be
    [OPEN], or not, says so of the state in which the listener runs. *)
Definition socket (e : event) (s : server) : server :=
  match e with
  | connection ws =>
      {| clientStreams := clientStreams s;
         OPEN := {[ws]} ∪ OPEN s; fresh := fresh s |}
  | close ws _ _ | error ws _ =>
      {| clientStreams := clientStreams s;
         OPEN := OPEN s ∖ {[ws]}; fresh := fresh s |}
  | _ => s
  end.

Definition dispatch (e : event) : listener :=
  match e with
  | connection ws => on_connection ws
  | message ws m => on_message ws m
  | close ws code reason => on_close ws code reason
  | error ws err => on_error ws err
  | recognize_error ws err => recognize_on_error ws err
  | recognize_data ws data => recognize_on_data ws data
  | recognize_end ws => recognize_on_end ws
  | ffmpeg_start _ _ cmd => ffmpeg_on_start cmd
  | ffmpeg_error _ _ msg stderr => ffmpeg_on_error msg stderr
  | ffmpeg_end _ _ => ffmpeg_on_end
  end.

Definition step (e : event) : listener := fun s => dispatch e (socket e s).

(** The history of a run: every event delivered, each followed by the
    effects of its listener, oldest first.  [index.js] installs no handler
    for uncaught exceptions, so an [uncaught_TypeError] ends the Node
    process: what [run] gives after that item is not the state of a running
    server, and a statement about what follows a listener says that the
    listener returned. *)
Inductive item :=
| Ev (e : event)
| Act (a : action).

Fixpoint run (s : server) (evs : list event) : server * list item :=
  match evs with
  | [] => (s, [])
  | e :: evs' =>
      let '(s1, acts) := step e s in
      let '(s2, log) := run s1 evs' in
      (s2, Ev e :: map Act acts ++ log)
  end.



(** ** Live handles *)

(** The handles the server has created and not given up, each with the
    connection that created it.  A recognition stream is open from the
    [streamingRecognize] that returned it until it is [destroy]ed.  An ffmpeg
    command is current from the [pipe] that set it up until the server
    [kill]s it or it emits ["end"] or ["error"]: [transcoding] is what the
    server still counts on, not the processes that run, which [processes_of]
    follows. *)
Record handles := {
  recognizing : gmap handle conn;
  transcoding : gmap handle conn
}.

Definition no_handles : handles := {| recognizing := ∅; transcoding := ∅ |}.

Definition track (L : handles) (i : item) : handles :=
  match i with
  | Act (streamingRecognize ws h _) =>
      {| recognizing := <[h := ws]> (recognizing L);
         transcoding := transcoding L |}
  | Act (destroy h) =>
      {| recognizing := delete h (recognizing L);
         transcoding := transcoding L |}
  | Act (spawn ws h _) =>
      {| recognizing := recognizing L;
         transcoding := <[h := ws]> (transcoding L) |}
  | Act (kill h _) | Ev (ffmpeg_end _ h) | Ev (ffmpeg_error _ h _ _) =>
      {| recognizing := recognizing L;
         transcoding := delete h (transcoding L) |}
  | _ => L
  end.

Definition live_from (L : handles) (log : list item) : handles :=
  fold_left track log L.

Definition live (log : list item) : handles := live_from no_handles log.

(** ** Observations on effects and events *)

(** The recognition streams a listener opened for [ws], the streams it
    destroyed and the commands it killed. *)
Definition opened (ws : conn) (acts : list action) : list handle :=
  omap (λ a, match a with
             | streamingRecognize ws' h _ =>
                 if bool_decide (ws' = ws) then Some h else None
             | _ => None
             end) acts.

Definition destroyed (acts : list action) : list handle :=
  omap (λ a, match a with destroy h => Some h | _ => None end) acts.

Definition killed (acts : list action) : list handle :=
  omap (λ a, match a with kill h _ => Some h | _ => None end) acts.

Definition spawned (acts : list action) : list (conn * handle * ffmpegCommand) :=
  omap (λ a, match a with spawn ws h c => Some (ws, h, c) | _ => None end) acts.

(** A listener that touched no handle: it only wrote to the console, sent
    to a client, or threw. *)
Definition quiet (a : action) : bool :=
  match a with
  | console _ | send _ _ | uncaught_TypeError => true
  | _ => false
  end.

(** An effect of a listener that returned without touching a handle: a
    console line or a send. *)
Definition silent (a : action) : bool :=
  match a with
  | console _ | send _ _ => true
  | _ => false
  end.

(** The transcript envelopes sent to [ws] in a history, oldest first. *)
Definition transcripts_to (ws : conn) (log : list item) : list envelope :=
  omap (λ i, match i with
             | Act (send ws' (Transcript t f)) =>
                 if bool_decide (ws' = ws) then Some (Transcript t f) else None
             | _ => None
             end) log.

(** The envelope of a response of the recognition service: the top
    alternative of the top result, when there is one. *)
Definition envelope_of (data : response) : option envelope :=
  match results data with
  | {| alternatives := a :: _; isFinal := f |} :: _ =>
      Some (Transcript (transcript a) f)
  | _ => None
  end.

(** The results the recognition stream of [ws] emitted in a run, as
    envelopes, oldest first. *)
Definition emitted (ws : conn) (evs : list event) : list envelope :=
  omap (λ e, match e with
             | recognize_data ws' data =>
                 if bool_decide (ws' = ws) then envelope_of data else None
             | _ => None
             end) evs.

(** No ["close"] and no ["error"] of socket [ws] in a run. *)
Definition stays_open (ws : conn) (evs : list event) : bool :=
  forallb (λ e, match e with
                | close ws' _ _ | error ws' _ => negb (bool_decide (ws' = ws))
                | _ => true
                end) evs.

(** The connection in whose listener closure an event runs. *)
Definition event_conn (e : event) : conn :=
  match e with
  | connection ws | message ws _ | close ws _ _ | error ws _
  | recognize_error ws _ | recognize_data ws _ | recognize_end ws
  | ffmpeg_start ws _ _ | ffmpeg_error ws _ _ _ | ffmpeg_end ws _ => ws
  end.

(** The payload of a message that takes the [audio_chunk] branch. *)
Definition chunk_of (m : parsed) : option jsvalue :=
  match m with
  | SyntaxError => None
  | Value v =>
      match member "type" v with
      | Normal type =>
          match chunk_payload type v with
          | Normal d => d
          | Throw => None
          end
      | Throw => None
      end
  end.

(** The session of [ws] is streaming when the registry holds a recognition
    stream for it; otherwise it is idle or has been torn down, which the
    registry does not tell apart. *)
Definition streaming (s : server) (ws : conn) : Prop :=
  ∃ d r, clientStreams s !! ws = Some d ∧ recognizeStream d = Some r.

(** What the router takes for malformed input: text that is not JSON, or a
    value whose [type] can be read and is neither of the two recognised
    tags. *)
Definition malformed (m : parsed) : Prop :=
  match m with
  | SyntaxError => True
  | Value v =>
      ∃ type, member "type" v = Normal type
              ∧ strict_eq_string type "audio_chunk" = false
              ∧ strict_eq_string type "end_audio" = false
  end.

(** ** Consistency of the registry with the live handles *)

(** What links a server state to the handles that are live: every current
    ffmpeg command is the [ffmpegProcess] of its connection's entry, the open
    recognition streams are exactly the [recognizeStream]s of the entries,
    every entry has a recognition stream, and identities are not reused. *)
Record consistent (s : server) (L : handles) : Prop := {
  transcoding_registered : ∀ h ws,
    transcoding L !! h = Some ws →
    ∃ d, clientStreams s !! ws = Some d ∧ ffmpegProcess d = Some h;
  recognizing_registered : ∀ h ws,
    recognizing L !! h = Some ws ↔
    ∃ d, clientStreams s !! ws = Some d ∧ recognizeStream d = Some h;
  entries_have_stream : ∀ ws d,
    clientStreams s !! ws = Some d → is_Some (recognizeStream d);
  recognizing_fresh : ∀ h ws,
    recognizing L !! h = Some ws → h < fresh s
}.

(** What [stopRecognitionStream] releases of an entry. *)
Definition release (d : clientData) (L : handles) : handles :=
  {| recognizing :=
       from_option (λ r, delete r (recognizing L)) (recognizing L)
         (recognizeStream d);
     transcoding :=
       from_option (λ f, delete f (transcoding L)) (transcoding L)
         (ffmpegProcess d) |}.

(** The events whose listener calls [stopRecognitionStream]. *)
Definition stops (s : server) (e : event) : bool :=
  match e with
  | close _ _ _ | error _ _ | recognize_error _ _ => true
  | recognize_data ws data =>
      match envelope_of data with
      | Some _ => negb (bool_decide (ws ∈ OPEN s))
      | None => false
      end
  | _ => false
  end.

(** The events that are a message of [ws] taking the [audio_chunk]
    branch. *)
Definition chunk_for (ws : conn) (e : event) : bool :=
  match e with
  | message ws' m => bool_decide (ws' = ws) && bool_decide (is_Some (chunk_of m))
  | _ => false
  end.

(** An item of a history other than a [ws.send]. *)
Definition not_sent (i : item) : bool :=
  match i with
  | Act (send _ _) => false
  | _ => true
  end.

(** What the listener of an event sends to [ws] as transcript in state [s]:
    the envelope of a response of [ws]'s recognition stream, when there is
    one and the socket is open. *)
Definition relayed (s : server) (ws : conn) (e : event) : list envelope :=
  match e with
  | recognize_data ws' data =>
      if bool_decide (ws' = ws) && bool_decide (ws ∈ OPEN s)
      then option_list (envelope_of data)
      else []
  | _ => []
  end.

(** ** Further observations *)

(** Everything a listener sent, with the socket it was sent on. *)
Definition sent (acts : list action) : list (conn * envelope) :=
  omap (λ a, match a with send ws e => Some (ws, e) | _ => None end) acts.

(** What the listener of an event is to send in state [s]: the transcript
    of a result, or the notice of a recognition error, on an open socket. *)
Definition replies (s : server) (e : event) : list (conn * envelope) :=
  match e with
  | recognize_data ws data =>
      if bool_decide (ws ∈ OPEN s)
      then (λ env, (ws, env)) <$> option_list (envelope_of data)
      else []
  | recognize_error ws err =>
      if bool_decide (ws ∈ OPEN s)
      then [(ws, ErrorNotice (String.append "Google Speech API Error: " err))]
      else []
  | _ => []
  end.

(** An item of a history other than an exception leaving a listener. *)
Definition not_thrown (i : item) : bool :=
  match i with
  | Act uncaught_TypeError => false
  | _ => true
  end.

(** An item of a history other than the line of the guard that follows
    [startRecognitionStream] in the [audio_chunk] branch. *)
Definition not_failed_to_get (i : item) : bool :=
  match i with
  | Act (console FailedToGetStream) => false
  | _ => true
  end.

(** The handles a registry entry holds. *)
Definition handles_of (d : clientData) : list handle :=
  option_list (recognizeStream d) ++ option_list (ffmpegProcess d).

(** The entries of the registry hold handles that were created before
    [fresh], and no two connections hold the same handle. *)
Record separate (s : server) : Prop := {
  handles_bounded : ∀ ws d h,
    clientStreams s !! ws = Some d → h ∈ handles_of d → h < fresh s;
  handles_disjoint : ∀ ws1 ws2 d1 d2 h,
    clientStreams s !! ws1 = Some d1 → clientStreams s !! ws2 = Some d2 →
    h ∈ handles_of d1 → h ∈ handles_of d2 → ws1 = ws2
}.

(** Every handle of a registry entry was created for its connection in the
    history: the stream by a [streamingRecognize], the command by a
    [spawn]. *)
Definition owned (s : server) (log : list item) : Prop :=
  ∀ ws d, clientStreams s !! ws = Some d →
    (∀ r, recognizeStream d = Some r →
          ∃ req, Act (streamingRecognize ws r req) ∈ log)
    ∧ (∀ p, ffmpegProcess d = Some p → ∃ cmd, Act (spawn ws p cmd) ∈ log).

(** An item of a history that neither opens nor destroys a recognition
    stream. *)
Definition keeps_streams (i : item) : bool :=
  match i with
  | Act (streamingRecognize _ _ _) | Act (destroy _) => false
  | _ => true
  end.

(** The handles released in a history, oldest first: the streams destroyed
    and the commands killed. *)
Definition released (log : list item) : list handle :=
  omap (λ i, match i with
             | Act (destroy h) | Act (kill h _) => Some h
             | _ => None
             end) log.

(** What links a state to the releases of its history: the entries are
    separate, the stream and the command of an entry differ, and a handle
    that has been released is an old one, is no longer in any entry, and has
    been released once. *)
Record tidy (s : server) (log : list item) : Prop := {
  tidy_separate : separate s;
  tidy_entry : ∀ ws d, clientStreams s !! ws = Some d → NoDup (handles_of d);
  tidy_released_old : ∀ h, h ∈ released log → h < fresh s;
  tidy_released_gone : ∀ h ws d,
    h ∈ released log → clientStreams s !! ws = Some d → h ∉ handles_of d;
  tidy_released_once : NoDup (released log)
}.

(** The handles created in a history, each with the connection it was
    created for: the streams opened and the commands spawned. *)
Definition created (log : list item) : list (conn * handle) :=
  omap (λ i, match i with
             | Act (streamingRecognize ws h _) | Act (spawn ws h _) =>
                 Some (ws, h)
             | _ => None
             end) log.

(** Every handle created in the history is held by the entry of its
    connection or has been released. *)
Definition accounted (s : server) (log : list item) : Prop :=
  ∀ ws h, (ws, h) ∈ created log →
    (∃ d, clientStreams s !! ws = Some d ∧ h ∈ handles_of d)
    ∨ h ∈ released log.

(** ** The processes behind the commands *)

(** fluent-ffmpeg sets a command up asynchronously: [pipe] returns before
    the ffmpeg process exists; the process is spawned later, and the command
    then emits ["start"].  [kill] signals the process when there is one and
    only warns when there is none yet, so a command that is killed before
    its ["start"] is spawned all the same.  [starting] holds the commands
    that have been set up and whose process does not exist yet, [running]
    those whose process runs; a process ends when it is killed or when the
    command emits ["end"] or ["error"]. *)
Record processes := {
  starting : gmap handle conn;
  running : gmap handle conn
}.

Definition no_processes : processes := {| starting := ∅; running := ∅ |}.

Definition exec (P : processes) (i : item) : processes :=
  match i with
  | Act (spawn ws h _) =>
      {| starting := <[h := ws]> (starting P); running := running P |}
  | Ev (ffmpeg_start _ h _) =>
      match starting P !! h with
      | Some ws =>
          {| starting := delete h (starting P);
             running := <[h := ws]> (running P) |}
      | None => P
      end
  | Act (kill h _) =>
      {| starting := starting P; running := delete h (running P) |}
  | Ev (ffmpeg_end _ h) | Ev (ffmpeg_error _ h _ _) =>
      {| starting := delete h (starting P);
         running := delete h (running P) |}
  | _ => P
  end.

Definition processes_of (log : list item) : processes :=
  fold_left exec log no_processes.

(** ** Chunks and closes in a run *)




End Relay.

(** ** An instance to run the model on *)

(** A buffer kept as what it was built from, to run the model on strings,
    arrays, booleans, numbers and [null]: [Buffer.from] accepts a string (it
    skips what is not base64) and an array, and throws on [null], a boolean
    and a number.  On an object Node's answer depends on its [length],
    [type] and [data] properties (it accepts array-like objects and
    serialised buffers); that is not modelled, the instance rejects every
    object and is not applied to one. *)
Inductive nodeBuffer :=
| Base64 (s : string)
| Bytes (l : list jsvalue).

Definition node_Buffer_from (v : jsvalue) : option nodeBuffer :=
  match v with
  | JStr s => Some (Base64 s)
  | JArr l => Some (Bytes l)
  | _ => None
  end.

(** [{"type":"audio_chunk","data":d}] *)
Definition chunk (d : string) : parsed :=
  Value (JObj [("type", JStr "audio_chunk"); ("data", JStr d)]).

(** A client connects and sends one chunk. *)
Definition first_chunk : list event :=
  [connection 0; message 0 (chunk "AAAA")].

(** ... and then its recognition stream reports an error. *)
Definition recognition_failed : list event :=
  first_chunk ++ [recognize_error 0 "boom"].


(** Two results of the recognition service, a partial and a final one. *)
Definition partial_result : response :=
  {| results := [{| alternatives := [{| transcript := "hel" |}];
                    isFinal := false |}] |}.
Definition final_result : response :=
  {| results := [{| alternatives := [{| transcript := "hello world" |}];
                    isFinal := true |}] |}.

(** A second client connects and sends a chunk after the first one. *)
Definition two_clients : list event :=
  first_chunk ++ [connection 1; message 1 (chunk "CCCC")].

(** [{"type":"end_audio"}] and [{"type":"audio_chunk","data":true}] *)
Definition end_audio : parsed :=
  Value (JObj [("type", JStr "end_audio")]).
Definition chunk_true : parsed :=
  Value (JObj [("type", JStr "audio_chunk"); ("data", JBool true)]).

(** The first client sends a second chunk before the command of the first
    one has started; then both commands start. *)
Definition overlapping_chunks : list event :=
  first_chunk ++
  [message 0 (chunk "BBBB");
   ffmpeg_start 0 1 "ffmpeg -f 3gp -i pipe:0 -acodec pcm_s16le -ar 16000 -ac 1 -f s16le pipe:1";
   ffmpeg_start 0 2 "ffmpeg -f 3gp -i pipe:0 -acodec pcm_s16le -ar 16000 -ac 1 -f s16le pipe:1"].

(** * Properties *)

Section Properties.

Context {buffer : Type} (Buffer_from : jsvalue → option buffer).

Local Abbreviation stopRecognitionStream := (@stopRecognitionStream buffer).
Local Abbreviation audio_chunk := (audio_chunk Buffer_from).
Local Abbreviation on_message := (on_message Buffer_from).
Local Abbreviation dispatch := (dispatch Buffer_from).
Local Abbreviation step := (step Buffer_from).
Local Abbreviation run := (run Buffer_from).

Implicit Types (s : server) (ws : conn) (h : handle) (L : handles).
Implicit Types (acts : list (@action buffer)) (log : list (@item buffer)).

(** ** Teardown *)

Lemma stop_registered s ws d :
  clientStreams s !! ws = Some d →
  stopRecognitionStream ws s =
    (set_clientStreams (delete ws (clientStreams s)) s,
     match recognizeStream d with
     | Some r => [console DestroyingRecognizeStream; destroy r]
     | None => []
     end ++
     match ffmpegProcess d with
     | Some f => [console KillingFfmpeg; kill f "SIGKILL"]
     | None => []
     end).
Proof. intros Hd. unfold stopRecognitionStream. by rewrite Hd. Qed.

Lemma stop_unregistered s ws :
  clientStreams s !! ws = None →
  stopRecognitionStream ws s = (s, [console NoActiveStream]).
Proof. intros Hd. unfold stopRecognitionStream. by rewrite Hd. Qed.

(** C7: calling [stopRecognitionStream] twice in a row on the same
    connection destroys the recognition stream held by its registry entry
    exactly once, kills the ffmpeg command held by it exactly once, removes
    the entry once, and the second call changes nothing and only prints that
    there is no active stream. *)
Theorem stop_twice_releases_once s ws :
  let '(s1, a1) := stopRecognitionStream ws s in
  let '(s2, a2) := stopRecognitionStream ws s1 in
  destroyed (a1 ++ a2) =
    from_option (λ d, option_list (recognizeStream d)) [] (clientStreams s !! ws)
  ∧ killed (a1 ++ a2) =
    from_option (λ d, option_list (ffmpegProcess d)) [] (clientStreams s !! ws)
  ∧ clientStreams s1 = delete ws (clientStreams s)
  ∧ clientStreams s1 !! ws = None
  ∧ s2 = s1
  ∧ a2 = [console NoActiveStream].
Proof.
  destruct (clientStreams s !! ws) as [d|] eqn:Hd.
  - rewrite (stop_registered _ _ _ Hd).
    rewrite stop_unregistered by apply lookup_delete_eq.
    cbn [from_option set_clientStreams clientStreams].
    rewrite lookup_delete_eq.
    destruct d as [[r|] [f|]]; by cbn.
  - rewrite !(stop_unregistered _ _ Hd), Hd. cbn.
    split_and!; try done.
    symmetry. by apply delete_id.
Qed.

(** ** The message router *)

(** C9: a message that is not JSON, or whose [type] is neither
    ["audio_chunk"] nor ["end_audio"], is answered by one console line and
    nothing else: the server state is the same, nothing is sent, no handle
    is opened or released and no exception escapes. *)
Theorem malformed_message_discarded s ws (m : parsed) :
  malformed m →
  ∃ l, step (message ws m) s = (s, [console l])
       ∧ (l = InvalidJson ∨ ∃ type, l = UnknownMessageType type).
Proof.
  destruct m as [|v]; cbn.
  - intros _. exists InvalidJson. auto.
  - intros (type & Hty & Hchunk & Hend).
    exists (UnknownMessageType type).
    unfold step, on_message, chunk_payload; cbn.
    rewrite Hty, Hchunk, Hend. eauto.
Qed.

(** C10: an [audio_chunk] message whose [data] is missing or falsy takes
    the unknown-type branch: one console line naming the type, the server
    state is the same, no recognition stream is opened, no ffmpeg command is
    spawned and the conversion's error line is not printed. *)
Theorem chunk_without_data_is_unknown_type s ws (v : jsvalue) (d : option jsvalue) :
  member "type" v = Normal (Some (JStr "audio_chunk")) →
  member "data" v = Normal d →
  truthy' d = false →
  step (message ws (Value v)) s =
    (s, [console (UnknownMessageType (Some (JStr "audio_chunk")))]).
Proof.
  intros Hty Hd Hfalsy.
  unfold step, on_message, chunk_payload; cbn.
  rewrite Hty; cbn. rewrite Hd.
  destruct d as [data|]; cbn in *; [rewrite Hfalsy|]; done.
Qed.

(** ** A failing conversion *)

(** C1: the ["error"] listener of an ffmpeg command prints the error and
    ffmpeg's stderr and leaves the server state as it is: the registry entry
    keeps its recognition stream, and it keeps its [ffmpegProcess] too. *)
Theorem ffmpeg_error_only_logs s ws h (msg stderr : string) :
  step (ffmpeg_error ws h msg stderr) s =
    (s, [console (FfmpegError msg); console (FfmpegStderr stderr)]).
Proof. reflexivity. Qed.

(** ** Histories and live handles *)

Lemma live_from_app L log1 log2 :
  live_from L (log1 ++ log2) = live_from (live_from L log1) log2.
Proof. apply fold_left_app. Qed.

Lemma live_from_quiet L acts :
  forallb quiet acts = true → live_from L (map Act acts) = L.
Proof.
  revert L. induction acts as [|a acts IH]; intros L; [done|].
  cbn. intros [Ha Hacts]%andb_prop.
  destruct a; try discriminate Ha; apply IH, Hacts.
Qed.

Lemma live_from_stop L (d : clientData) :
  live_from L
    (map (Act (buffer:=buffer))
       (match recognizeStream d with
        | Some r => [console DestroyingRecognizeStream; destroy r]
        | None => []
        end ++
        match ffmpegProcess d with
        | Some f => [console KillingFfmpeg; kill f "SIGKILL"]
        | None => []
        end)) = release d L.
Proof. destruct L, d as [[r|] [f|]]; reflexivity. Qed.

Lemma run_cons s (e : event) (evs : list event) :
  run s (e :: evs) =
    ((run (step e s).1 evs).1,
     Ev e :: map Act (step e s).2
       ++ (run (step e s).1 evs).2).
Proof.
  cbn. destruct (step e s) as [s1 acts]; cbn.
  by destruct (run s1 evs).
Qed.

(** ** The registry and the live handles stay consistent *)

Lemma consistent_initial : consistent initial no_handles.
Proof.
  split; cbn; intros *; rewrite ?lookup_empty; try done.
  split; [done|]. by intros (d & ? & _).
Qed.

Lemma consistent_socket s L (e : event) :
  consistent s L → consistent (socket e s) L.
Proof. intros [? ? ? ?]. destruct e; split; done. Qed.

Lemma consistent_event s L (e : event) :
  consistent s L → consistent s (track L (Ev (buffer:=buffer) e)).
Proof.
  intros [Ht Hr He Hf].
  destruct e; try (split; done); split; cbn; try done;
    intros h' ws' [_ Hl]%lookup_delete_Some; by apply Ht.
Qed.

Lemma consistent_release s L ws d :
  consistent s L →
  clientStreams s !! ws = Some d →
  consistent (set_clientStreams (delete ws (clientStreams s)) s) (release d L).
Proof.
  intros [Ht Hr He Hf] Hd. split; cbn.
  - intros h ws' Hl.
    assert (transcoding L !! h = Some ws' ∧ ffmpegProcess d ≠ Some h)
      as [Hl' Hne].
    { destruct (ffmpegProcess d) as [f|]; cbn in Hl.
      - apply lookup_delete_Some in Hl as [? ?]. split; congruence.
      - done. }
    destruct (Ht _ _ Hl') as (d' & Hd' & Hf').
    exists d'. split; [|done].
    rewrite lookup_delete_ne; [done|]. intros <-. congruence.
  - intros h ws'. split.
    + intros Hl.
      assert (recognizing L !! h = Some ws' ∧ recognizeStream d ≠ Some h)
        as [Hl' Hne].
      { destruct (recognizeStream d) as [r|]; cbn in Hl.
        - apply lookup_delete_Some in Hl as [? ?]. split; congruence.
        - done. }
      apply Hr in Hl' as (d' & Hd' & Hr').
      exists d'. split; [|done].
      rewrite lookup_delete_ne; [done|]. intros <-. congruence.
    + intros (d' & Hd' & Hr').
      apply lookup_delete_Some in Hd' as [Hne Hd'].
      assert (recognizing L !! h = Some ws') as Hl by (apply Hr; eauto).
      destruct (recognizeStream d) as [r|] eqn:Hrd; cbn; [|done].
      rewrite lookup_delete_ne; [done|]. intros <-.
      assert (recognizing L !! r = Some ws) as Hl2 by (apply Hr; eauto).
      congruence.
  - intros ws' d' [_ Hd']%lookup_delete_Some. by eapply He.
  - intros h ws' Hl. apply (Hf h ws').
    destruct (recognizeStream d) as [r|]; cbn in Hl; [|done].
    by apply lookup_delete_Some in Hl as [_ ?].
Qed.

Lemma consistent_stop s L ws :
  consistent s L →
  consistent (stopRecognitionStream ws s).1
    (live_from L (map Act (stopRecognitionStream ws s).2)).
Proof.
  intros HI. destruct (clientStreams s !! ws) as [d|] eqn:Hd.
  - rewrite (stop_registered _ _ _ Hd). cbn [fst snd].
    rewrite live_from_stop. by apply consistent_release.
  - rewrite (stop_unregistered _ _ Hd). exact HI.
Qed.


(** ** The [audio_chunk] branch, case by case *)

Lemma not_streaming_lookup s ws :
  ¬ streaming s ws →
  match clientStreams s !! ws with
  | Some {| recognizeStream := Some _ |} => False
  | _ => True
  end.
Proof.
  intros Hn. destruct (clientStreams s !! ws) as [[[r|] p]|] eqn:Hd; [|done..].
  apply Hn. by exists {| recognizeStream := Some r; ffmpegProcess := p |}, r.
Qed.

Lemma audio_chunk_streaming s ws r (previous : option handle) (data : jsvalue) :
  clientStreams s !! ws =
    Some {| recognizeStream := Some r; ffmpegProcess := previous |} →
  audio_chunk ws data s =
    match Buffer_from data with
    | Some audioBuffer =>
        ({| clientStreams :=
              <[ws := {| recognizeStream := Some r;
                         ffmpegProcess := Some (fresh s) |}]> (clientStreams s);
            OPEN := OPEN s;
            fresh := S (fresh s) |},
         [console (ReceivedChunk audioBuffer);
          console (First16Bytes audioBuffer)] ++
         match previous with
         | Some p => [console KillingPreviousFfmpeg; kill p "SIGKILL"]
         | None => []
         end ++
         [console AttemptingRawPcm;
          spawn ws (fresh s)
            {| input := audioBuffer;
               inputFormat := "3gp";
               outputOptions := pcm_options;
               pipe_target := r;
               pipe_end := false |}])
    | None => (s, [console ErrorProcessingChunk])
    end.
Proof.
  intros Hd. unfold audio_chunk. rewrite Hd. cbn. rewrite Hd.
  by destruct (Buffer_from data).
Qed.

Lemma start_registers s ws :
  clientStreams (startRecognitionStream (buffer:=buffer) ws s).1 !! ws =
    Some {| recognizeStream := Some (fresh s); ffmpegProcess := None |}.
Proof. cbn. apply lookup_insert_eq. Qed.

Lemma audio_chunk_idle s ws (data : jsvalue) :
  ¬ streaming s ws →
  audio_chunk ws data s =
    let s1 := (startRecognitionStream (buffer:=buffer) ws s).1 in
    ((audio_chunk ws data s1).1,
     [console NoStreamFound; console StartingRecognizeStream;
      streamingRecognize ws (fresh s) requestConfig]
     ++ (audio_chunk ws data s1).2).
Proof.
  intros Hn%not_streaming_lookup. cbn zeta.
  rewrite (audio_chunk_streaming _ _ _ _ _ (start_registers s ws)).
  unfold audio_chunk.
  destruct (clientStreams s !! ws) as [[[r|] p]|] eqn:Hd; [done|..];
    cbn; rewrite lookup_insert_eq; by destruct (Buffer_from data).
Qed.

Lemma on_message_chunk s ws (m : parsed) (data : jsvalue) :
  chunk_of m = Some data → on_message ws m s = audio_chunk ws data s.
Proof.
  destruct m as [|v]; [done|]. unfold chunk_of, on_message.
  destruct (member "type" v) as [type|]; [|done].
  destruct (chunk_payload type v) as [[d|]|]; [|done..].
  by intros [= ->].
Qed.

Lemma on_message_other s ws (m : parsed) :
  chunk_of m = None →
  ∃ a, on_message ws m s = (s, [a]) ∧ quiet a = true.
Proof.
  destruct m as [|v]; [by eexists|]. unfold chunk_of, on_message.
  destruct (member "type" v) as [type|]; [|by eexists].
  destruct (chunk_payload type v) as [[d|]|]; [done| |by eexists].
  intros _. destruct (strict_eq_string type "end_audio"); by eexists.
Qed.

Lemma consistent_start s L ws :
  consistent s L →
  ¬ streaming s ws →
  consistent (startRecognitionStream (buffer:=buffer) ws s).1
    {| recognizing := <[fresh s := ws]> (recognizing L);
       transcoding := transcoding L |}.
Proof.
  intros [Ht Hr He Hf] Hn.
  assert (clientStreams s !! ws = None) as Hnone.
  { destruct (clientStreams s !! ws) as [d|] eqn:Hd; [|done].
    destruct (He _ _ Hd) as [r Hrd]. destruct Hn. by exists d, r. }
  split; cbn.
  - intros h ws' Hl. destruct (Ht _ _ Hl) as (d & Hd & Hfd).
    exists d. split; [|done].
    rewrite lookup_insert_ne; [done|]. intros <-. congruence.
  - intros h ws'. rewrite lookup_insert_Some. split.
    + intros [[<- <-]|[Hne Hl]].
      * eexists. by rewrite lookup_insert_eq.
      * apply Hr in Hl as (d & Hd & Hrd). exists d. split; [|done].
        rewrite lookup_insert_ne; [done|]. intros <-. congruence.
    + intros (d & Hd & Hrd).
      apply lookup_insert_Some in Hd as [[<- <-]|[Hne Hd]].
      * left. cbn in Hrd. split; congruence.
      * right. assert (recognizing L !! h = Some ws') as Hl
          by (apply Hr; eauto).
        split; [|done]. apply Hf in Hl. lia.
  - intros ws' d [[<- <-]|[Hne Hd]]%lookup_insert_Some; [by eexists|].
    by eapply He.
  - intros h ws' [[<- <-]|[Hne Hl]]%lookup_insert_Some; [lia|].
    apply Hf in Hl. lia.
Qed.

Lemma consistent_chunk_streaming s L ws r (previous : option handle)
    (data : jsvalue) :
  consistent s L →
  clientStreams s !! ws =
    Some {| recognizeStream := Some r; ffmpegProcess := previous |} →
  consistent (audio_chunk ws data s).1
    (live_from L (map Act (audio_chunk ws data s).2)).
Proof.
  intros [Ht Hr He Hf] Hd.
  rewrite (audio_chunk_streaming _ _ _ _ _ Hd).
  destruct (Buffer_from data) as [audioBuffer|]; [|by split].
  cbn [fst snd].
  assert (live_from L
            (map (Act (buffer:=buffer))
               ([console (ReceivedChunk audioBuffer);
                 console (First16Bytes audioBuffer)] ++
                match previous with
                | Some p => [console KillingPreviousFfmpeg; kill p "SIGKILL"]
                | None => []
                end ++
                [console AttemptingRawPcm;
                 spawn ws (fresh s)
                   {| input := audioBuffer; inputFormat := "3gp";
                      outputOptions := pcm_options; pipe_target := r;
                      pipe_end := false |}]))
          = {| recognizing := recognizing L;
               transcoding :=
                 <[fresh s := ws]>
                   (from_option (λ p, delete p (transcoding L)) (transcoding L)
                      previous) |}) as ->.
  { by destruct L, previous. }
  split; cbn.
  - intros h ws' [[<- <-]|[Hne Hl]]%lookup_insert_Some.
    { eexists. by rewrite lookup_insert_eq. }
    assert (transcoding L !! h = Some ws' ∧ previous ≠ Some h) as [Hl' Hp].
    { destruct previous as [p|]; cbn in Hl; [|done].
      apply lookup_delete_Some in Hl as [? ?]. split; congruence. }
    destruct (Ht _ _ Hl') as (d & Hd' & Hfd).
    exists d. split; [|done].
    rewrite lookup_insert_ne; [done|]. intros <-.
    rewrite Hd in Hd'. injection Hd' as <-. done.
  - intros h ws'. rewrite Hr. split.
    + intros (d & Hd' & Hrd). destruct (decide (ws = ws')) as [<-|Hne].
      * rewrite Hd in Hd'. injection Hd' as <-.
        eexists. by rewrite lookup_insert_eq.
      * exists d. by rewrite lookup_insert_ne.
    + intros (d & [[<- <-]|[Hne Hd']]%lookup_insert_Some & Hrd); eauto.
  - intros ws' d [[<- <-]|[Hne Hd']]%lookup_insert_Some; [by eexists|].
    by eapply He.
  - intros h ws' Hl%Hf. lia.
Qed.

Lemma consistent_chunk s L ws (data : jsvalue) :
  consistent s L →
  consistent (audio_chunk ws data s).1
    (live_from L (map Act (audio_chunk ws data s).2)).
Proof.
  intros HI.
  destruct (clientStreams s !! ws) as [[[r|] p]|] eqn:Hd.
  { by eapply consistent_chunk_streaming. }
  all: assert (¬ streaming s ws) as Hn
    by (intros (d & r & Hd' & Hrd); rewrite Hd in Hd'; by simplify_eq).
  all: rewrite (audio_chunk_idle _ _ _ Hn); cbn [fst snd].
  all: rewrite map_app, live_from_app.
  all: eapply consistent_chunk_streaming;
    [by apply consistent_start|apply start_registers].
Qed.


Lemma consistent_dispatch s L (e : event) :
  consistent s L →
  consistent (dispatch e s).1 (live_from L (map Act (dispatch e s).2)).
Proof.
  intros HI. destruct e as [ws|ws m|ws code reason|ws err|ws err|ws data|ws
                            |ws h cmd|ws h msg stderr|ws h]; cbn [dispatch];
    try exact HI.
  - destruct (chunk_of m) as [data|] eqn:Hm.
    + rewrite (on_message_chunk _ _ _ _ Hm). by apply consistent_chunk.
    + destruct (on_message_other s ws m Hm) as (a & -> & Ha).
      cbn [fst snd]. rewrite live_from_quiet; [done|]. by rewrite <- Ha; cbn; destruct (quiet a).
  - pose proof (consistent_stop s L ws HI) as HI'. unfold on_close.
    by destruct (stopRecognitionStream ws s) as [s' acts].
  - pose proof (consistent_stop s L ws HI) as HI'. unfold on_error.
    by destruct (stopRecognitionStream ws s) as [s' acts].
  - pose proof (consistent_stop s L ws HI) as HI'. unfold recognize_on_error.
    destruct (stopRecognitionStream ws s) as [s' acts]. cbn in *.
    change (fold_left track ?l ?L0) with (live_from L0 l).
    rewrite map_app, live_from_app.
    rewrite (live_from_quiet _ (if bool_decide (ws ∈ OPEN s') then _ else _));
      [done|by case_bool_decide].
  - unfold recognize_on_data.
    destruct (results data) as [|[[|a alts] f] rest]; try exact HI.
    case_bool_decide; [exact HI|].
    pose proof (consistent_stop s L ws HI) as HI'.
    by destruct (stopRecognitionStream ws s) as [s' acts].
Qed.

Lemma consistent_step s L (e : event) :
  consistent s L →
  consistent (step e s).1 (live_from L (Ev e :: map Act (step e s).2)).
Proof.
  intros HI. unfold step. cbn [live_from fold_left].
  apply consistent_dispatch, consistent_event, consistent_socket, HI.
Qed.

Lemma consistent_run (evs : list event) s L :
  consistent s L →
  consistent (run s evs).1 (live_from L (run s evs).2).
Proof.
  revert s L. induction evs as [|e evs IH]; intros s L HI; [done|].
  rewrite run_cons. cbn [fst snd].
  rewrite app_comm_cons, live_from_app.
  apply IH. by apply consistent_step.
Qed.

(** ** What a listener opens, destroys and spawns *)

Lemma streaming_dec s ws : streaming s ws ∨ ¬ streaming s ws.
Proof.
  destruct (clientStreams s !! ws) as [[[r|] p]|] eqn:Hd.
  - left. by eexists _, r.
  - right. intros (d & r & Hd' & Hr). rewrite Hd in Hd'. by simplify_eq.
  - right. intros (d & r & Hd' & Hr). rewrite Hd in Hd'. by simplify_eq.
Qed.

Lemma socket_clientStreams s (e : event) :
  clientStreams (socket e s) = clientStreams s.
Proof. by destruct e. Qed.

Lemma socket_fresh s (e : event) : fresh (socket e s) = fresh s.
Proof. by destruct e. Qed.

Lemma socket_streaming s (e : event) ws :
  streaming (socket e s) ws ↔ streaming s ws.
Proof. unfold streaming. by rewrite socket_clientStreams. Qed.

Lemma on_close_eq s ws (code : nat) (reason : option string) :
  on_close ws code reason s =
    ((stopRecognitionStream ws s).1,
     console (ConnectionClosed code reason) :: (stopRecognitionStream ws s).2).
Proof. unfold on_close. by destruct (stopRecognitionStream ws s). Qed.

Lemma on_error_eq s ws (err : string) :
  on_error ws err s =
    ((stopRecognitionStream ws s).1,
     console (WebSocketError err) :: (stopRecognitionStream ws s).2).
Proof. unfold on_error. by destruct (stopRecognitionStream ws s). Qed.

Lemma recognize_on_error_eq s ws (err : string) :
  recognize_on_error ws err s =
    ((stopRecognitionStream ws s).1,
     console (SpeechApiError err) :: (stopRecognitionStream ws s).2 ++
     if bool_decide (ws ∈ OPEN (stopRecognitionStream ws s).1)
     then [send ws (ErrorNotice (String.append "Google Speech API Error: " err))]
     else []).
Proof. unfold recognize_on_error. by destruct (stopRecognitionStream ws s). Qed.

Lemma recognize_on_data_eq s ws (data : response) :
  recognize_on_data (buffer:=buffer) ws data s =
    match envelope_of data with
    | Some env =>
        if bool_decide (ws ∈ OPEN s) then (s, [send ws env])
        else ((stopRecognitionStream ws s).1,
              console CannotSendTranscription :: (stopRecognitionStream ws s).2)
    | None => (s, [])
    end.
Proof.
  unfold recognize_on_data, envelope_of.
  destruct (results data) as [|[[|a alts] f] rest]; try done.
  case_bool_decide; [done|]. by destruct (stopRecognitionStream ws s).
Qed.

(** The effects of a listener on handles: those of [audio_chunk] for a
    message that takes that branch, those of [stopRecognitionStream] for an
    event that stops, and none for any other event. *)
Lemma dispatch_handles s (e : event) :
  ∃ pre post,
    forallb quiet pre = true ∧ forallb quiet post = true ∧
    ((∃ ws m data, e = message ws m ∧ chunk_of m = Some data
        ∧ dispatch e s = audio_chunk ws data s ∧ pre = [] ∧ post = [])
     ∨ (stops s e = true
        ∧ dispatch e s =
            ((stopRecognitionStream (event_conn e) s).1,
             pre ++ (stopRecognitionStream (event_conn e) s).2 ++ post))
     ∨ ((∀ ws m, e = message ws m → chunk_of m = None)
        ∧ stops s e = false ∧ dispatch e s = (s, pre))).
Proof.
  destruct e as [ws|ws m|ws code reason|ws err|ws err|ws data|ws
                |ws h cmd|ws h msg stderr|ws h]; cbn [dispatch stops event_conn].
  - exists [console ClientConnected], []. split_and!; try done.
    right; right. by split_and!.
  - destruct (chunk_of m) as [data|] eqn:Hm.
    + exists [], []. split_and!; try done. left.
      exists ws, m, data. split_and!; try done. by apply on_message_chunk.
    + destruct (on_message_other s ws m Hm) as (a & Ha & Hq).
      exists [a], []. cbn. rewrite Hq. split_and!; try done.
      right; right. split_and!; try done. by intros ? ? [= <- <-].
  - exists [console (ConnectionClosed code reason)], []. split_and!; try done.
    right; left. split; [done|]. by rewrite on_close_eq, app_nil_r.
  - exists [console (WebSocketError err)], []. split_and!; try done.
    right; left. split; [done|]. by rewrite on_error_eq, app_nil_r.
  - eexists [console (SpeechApiError err)], _. split_and!; [done| |].
    2:{ right; left. split; [done|]. by rewrite recognize_on_error_eq. }
    by case_bool_decide.
  - rewrite recognize_on_data_eq.
    destruct (envelope_of data) as [env|] eqn:Henv; cbn.
    + case_bool_decide; cbn.
      * exists [send ws env], []. split_and!; try done.
        right; right. by split_and!.
      * exists [console CannotSendTranscription], []. split_and!; try done.
        right; left. split; [done|]. by rewrite app_nil_r.
    + exists [], []. split_and!; try done. right; right. by split_and!.
  - exists [console RecognizeStreamEnded], []. split_and!; try done.
    right; right. by split_and!.
  - exists [console (FfmpegStart cmd)], []. split_and!; try done.
    right; right. by split_and!.
  - exists [console (FfmpegError msg); console (FfmpegStderr stderr)], [].
    split_and!; try done. right; right. by split_and!.
  - exists [console FfmpegFinished], []. split_and!; try done.
    right; right. by split_and!.
Qed.


Lemma quiet_observed acts ws :
  forallb quiet acts = true →
  opened ws acts = [] ∧ destroyed acts = [] ∧ killed acts = []
  ∧ spawned acts = [].
Proof.
  induction acts as [|a acts IH]; [done|]. cbn.
  intros [Ha Hacts]%andb_prop. destruct a; try discriminate Ha; by apply IH.
Qed.

Lemma stop_observed s ws ws' :
  opened ws' (stopRecognitionStream ws s).2 = []
  ∧ spawned (stopRecognitionStream ws s).2 = []
  ∧ destroyed (stopRecognitionStream ws s).2 =
      from_option (λ d, option_list (recognizeStream d)) []
        (clientStreams s !! ws)
  ∧ killed (stopRecognitionStream ws s).2 =
      from_option (λ d, option_list (ffmpegProcess d)) []
        (clientStreams s !! ws).
Proof.
  destruct (clientStreams s !! ws) as [d|] eqn:Hd.
  - rewrite (stop_registered _ _ _ Hd). by destruct d as [[r|] [f|]].
  - by rewrite (stop_unregistered _ _ Hd).
Qed.

Lemma chunk_streaming_observed s ws ws' r (previous : option handle)
    (data : jsvalue) :
  clientStreams s !! ws =
    Some {| recognizeStream := Some r; ffmpegProcess := previous |} →
  opened ws' (audio_chunk ws data s).2 = []
  ∧ destroyed (audio_chunk ws data s).2 = []
  ∧ (∀ c h cmd, (c, h, cmd) ∈ spawned (audio_chunk ws data s).2 →
       c = ws ∧ pipe_end cmd = false ∧ pipe_target cmd = r)
  ∧ clientStreams (audio_chunk ws data s).1 !! ws =
      Some {| recognizeStream := Some r;
              ffmpegProcess :=
                match Buffer_from data with
                | Some _ => Some (fresh s)
                | None => previous
                end |}.
Proof.
  intros Hd. rewrite (audio_chunk_streaming _ _ _ _ _ Hd).
  destruct (Buffer_from data) as [audioBuffer|]; cbn [fst snd].
  - split_and!; [by destruct previous|by destruct previous| |].
    + intros c h cmd. destruct previous; cbn.
      all: by intros [= -> -> ->]%list_elem_of_singleton.
    + cbn. by rewrite lookup_insert_eq.
  - split_and!; try done. intros c h cmd. cbn. by intros ?%elem_of_nil.
Qed.

Lemma chunk_idle_observed s ws ws' (data : jsvalue) :
  ¬ streaming s ws →
  opened ws' (audio_chunk ws data s).2 =
    (if bool_decide (ws = ws') then [fresh s] else [])
  ∧ destroyed (audio_chunk ws data s).2 = []
  ∧ (∀ c h cmd, (c, h, cmd) ∈ spawned (audio_chunk ws data s).2 →
       c = ws ∧ pipe_end cmd = false ∧ pipe_target cmd = fresh s)
  ∧ clientStreams (audio_chunk ws data s).1 !! ws =
      Some {| recognizeStream := Some (fresh s);
              ffmpegProcess :=
                match Buffer_from data with
                | Some _ => Some (S (fresh s))
                | None => None
                end |}.
Proof.
  intros Hn. rewrite (audio_chunk_idle _ _ _ Hn). cbn zeta. cbn [fst snd].
  destruct (chunk_streaming_observed _ ws ws' _ _ data (start_registers s ws))
    as (Ho & Hdes & Hsp & Hreg).
  unfold opened, destroyed, spawned in *. rewrite !omap_app, Ho, Hdes.
  split_and!; [cbn; by case_bool_decide|done|exact Hsp|exact Hreg].
Qed.


Lemma step_recognition s (e : event) ws :
  (streaming s ws → opened ws (step e s).2 = [])
  ∧ (¬ streaming s ws →
     opened ws (step e s).2 = if chunk_for ws e then [fresh s] else [])
  ∧ (chunk_for ws e = true → streaming (step e s).1 ws
                              ∧ destroyed (step e s).2 = [])
  ∧ (∀ c h cmd, (c, h, cmd) ∈ spawned (step e s).2 →
       pipe_end cmd = false
       ∧ ∃ d, clientStreams (step e s).1 !! c = Some d
              ∧ recognizeStream d = Some (pipe_target cmd))
  ∧ (∀ h, h ∈ destroyed (step e s).2 →
       clientStreams (step e s).1 !! event_conn e = None
       ∧ ∃ d, clientStreams s !! event_conn e = Some d
              ∧ recognizeStream d = Some h).
Proof.
  unfold step.
  pose proof (socket_clientStreams s e) as Hcs.
  pose proof (socket_fresh s e) as Hfr.
  pose proof (socket_streaming s e) as Hst.
  set (s0 := socket e s) in *. rewrite <- Hcs, <- Hfr. clearbody s0.
  setoid_rewrite <- Hst. clear Hcs Hfr Hst s.
  destruct (dispatch_handles s0 e) as (pre & post & Hpre & Hpost & Hcases).
  destruct Hcases as [(ws0 & m & data & -> & Hm & -> & _ & _)
                     |[(Hstops & ->)|(Hmsg & Hstops & ->)]].
  - (* the audio_chunk branch *)
    cbn [chunk_for event_conn]. rewrite Hm.
    rewrite (bool_decide_eq_true_2 (is_Some (Some data))) by eauto.
    rewrite andb_true_r.
    destruct (streaming_dec s0 ws0) as [(d & r & Hd & Hr)|Hn].
    + destruct d as [r' p]; cbn in Hr; subst r'.
      destruct (chunk_streaming_observed s0 ws0 ws r p data Hd)
        as (Ho & Hdes & Hsp & Hreg).
      split_and!.
      * done.
      * intros Hnws. rewrite Ho. case_bool_decide; [|done].
        subst ws0. destruct Hnws. by eexists _, r.
      * intros ->%bool_decide_eq_true. split; [|done]. by eexists _, r.
      * intros c h cmd (-> & Hend & Htarget)%Hsp. split; [done|].
        eexists. split; [exact Hreg|]. cbn. congruence.
      * rewrite Hdes. by intros h ?%elem_of_nil.
    + destruct (chunk_idle_observed s0 ws0 ws data Hn)
        as (Ho & Hdes & Hsp & Hreg).
      split_and!.
      * intros Hws. rewrite Ho. case_bool_decide; [by subst|done].
      * intros _. rewrite Ho.
        destruct (decide (ws0 = ws)) as [->|Hne].
        -- by rewrite !bool_decide_eq_true_2.
        -- by rewrite !bool_decide_eq_false_2.
      * intros ->%bool_decide_eq_true. split; [|done]. by eexists _, _.
      * intros c h cmd (-> & Hend & Htarget)%Hsp. split; [done|].
        eexists. split; [exact Hreg|]. cbn. congruence.
      * rewrite Hdes. by intros h ?%elem_of_nil.
  - (* a listener that stops the session *)
    cbn [fst snd].
    destruct (quiet_observed pre ws Hpre) as (Ho1 & Hd1 & _ & Hs1).
    destruct (quiet_observed post ws Hpost) as (Ho2 & Hd2 & _ & Hs2).
    destruct (stop_observed s0 (event_conn e) ws) as (Ho & Hs & Hd & _).
    unfold opened, destroyed, spawned in *.
    rewrite !omap_app, Ho, Ho1, Ho2, Hs, Hs1, Hs2, Hd, Hd1, Hd2.
    assert (chunk_for ws e = false) as -> by by destruct e.
    split_and!; try done.
    + intros c h cmd. by intros ?%elem_of_nil.
    + intros h. cbn [app]. rewrite app_nil_r.
      destruct (clientStreams s0 !! event_conn e) as [d|] eqn:Hd0; cbn.
      * rewrite (stop_registered _ _ _ Hd0). cbn.
        rewrite lookup_delete_eq.
        destruct (recognizeStream d) as [r|] eqn:Hrd; cbn.
        -- intros ->%list_elem_of_singleton. eauto.
        -- by intros ?%elem_of_nil.
      * by intros ?%elem_of_nil.
  - (* any other listener *)
    cbn [fst snd].
    destruct (quiet_observed pre ws Hpre) as (-> & -> & _ & ->).
    assert (chunk_for ws e = false) as ->.
    { destruct e as [|ws' m| | | | | | | |]; try done. cbn.
      rewrite (Hmsg _ _ eq_refl).
      rewrite (bool_decide_eq_false_2 (is_Some None)); [|by intros [? ?]].
      apply andb_false_r. }
    split_and!; try done.
    + intros c h cmd. by intros ?%elem_of_nil.
    + by intros h ?%elem_of_nil.
Qed.



(** ** The registry *)

Lemma stop_state s ws :
  (stopRecognitionStream ws s).1 =
    set_clientStreams (delete ws (clientStreams s)) s.
Proof.
  destruct (clientStreams s !! ws) as [d|] eqn:Hd.
  - by rewrite (stop_registered _ _ _ Hd).
  - rewrite (stop_unregistered _ _ Hd). cbn.
    rewrite delete_id by done. by destruct s.
Qed.

Lemma chunk_state s ws (data : jsvalue) :
  OPEN (audio_chunk ws data s).1 = OPEN s
  ∧ ∀ ws', ws' ≠ ws →
      clientStreams (audio_chunk ws data s).1 !! ws' = clientStreams s !! ws'.
Proof.
  destruct (streaming_dec s ws) as [(d & r & Hd & Hr)|Hn].
  - destruct d as [r' p]; cbn in Hr; subst r'.
    rewrite (audio_chunk_streaming _ _ _ _ _ Hd).
    destruct (Buffer_from data) as [b|]; cbn; [|done].
    split; [done|]. intros ws' Hne. by rewrite lookup_insert_ne.
  - rewrite (audio_chunk_idle _ _ _ Hn). cbn zeta. cbn [fst].
    rewrite (audio_chunk_streaming _ _ _ _ _ (start_registers s ws)).
    destruct (Buffer_from data) as [b|]; cbn; (split; [done|]);
      intros ws' Hne; by rewrite !lookup_insert_ne.
Qed.

(** What a listener does to the registry and to the sockets: it leaves
    [OPEN] alone, it adds an entry only for the connection of a message that
    takes the [audio_chunk] branch, and when it stops a session the entry is
    gone. *)
Lemma dispatch_registry s (e : event) :
  OPEN (dispatch e s).1 = OPEN s
  ∧ (∀ ws, is_Some (clientStreams (dispatch e s).1 !! ws) →
           is_Some (clientStreams s !! ws) ∨ chunk_for ws e = true)
  ∧ (stops s e = true → clientStreams (dispatch e s).1 !! event_conn e = None).
Proof.
  destruct (dispatch_handles s e) as (pre & post & Hpre & Hpost & Hcases).
  destruct Hcases as [(ws0 & m & data & -> & Hm & -> & _ & _)
                     |[(Hstops & ->)|(Hmsg & Hstops & ->)]].
  - destruct (chunk_state s ws0 data) as [HO Hother].
    split_and!; [done| |done].
    intros ws Hsome. destruct (decide (ws = ws0)) as [->|Hne].
    + right. cbn. rewrite Hm, bool_decide_eq_true_2 by done.
      by rewrite bool_decide_eq_true_2 by eauto.
    + left. by rewrite <- Hother.
  - cbn [fst]. rewrite stop_state. cbn. split_and!; [done| |].
    + intros ws [d [_ Hd]%lookup_delete_Some]. left. eauto.
    + intros _. apply lookup_delete_eq.
  - cbn [fst]. split_and!; [done|auto|]. by rewrite Hstops.
Qed.

(** ** Relaying transcripts *)

Lemma transcripts_not_sent ws log :
  forallb not_sent log = true → transcripts_to ws log = [].
Proof.
  unfold transcripts_to.
  induction log as [|i log IH]; [done|]. cbn.
  intros [Hi Hlog]%andb_prop. rewrite (IH Hlog).
  destruct i as [e|a]; [done|]. by destruct a.
Qed.

Lemma transcripts_app ws log1 log2 :
  transcripts_to ws (log1 ++ log2) =
    transcripts_to ws log1 ++ transcripts_to ws log2.
Proof. apply omap_app. Qed.

Lemma stop_not_sent s ws :
  forallb not_sent (map Act (stopRecognitionStream ws s).2) = true.
Proof.
  unfold stopRecognitionStream.
  by destruct (clientStreams s !! ws) as [[[r|] [f|]]|].
Qed.

Lemma chunk_not_sent s ws (data : jsvalue) :
  forallb not_sent (map Act (audio_chunk ws data s).2) = true.
Proof.
  destruct (streaming_dec s ws) as [(d & r & Hd & Hr)|Hn].
  - destruct d as [r' p]; cbn in Hr; subst r'.
    rewrite (audio_chunk_streaming _ _ _ _ _ Hd).
    by destruct (Buffer_from data), p.
  - rewrite (audio_chunk_idle _ _ _ Hn). cbn zeta. cbn [snd].
    rewrite (audio_chunk_streaming _ _ _ _ _ (start_registers s ws)).
    by destruct (Buffer_from data).
Qed.

Lemma message_not_sent s ws (m : parsed) :
  forallb not_sent (map Act (on_message ws m s).2) = true.
Proof.
  destruct (chunk_of m) as [data|] eqn:Hm.
  - rewrite (on_message_chunk _ _ _ _ Hm). apply chunk_not_sent.
  - destruct m as [|v]; [done|]. unfold chunk_of in Hm.
    unfold on_message.
    destruct (member "type" v) as [type|]; [|done].
    destruct (chunk_payload type v) as [[d|]|]; [done| |done].
    by destruct (strict_eq_string type "end_audio").
Qed.

Lemma envelope_of_transcript (data : response) (env : envelope) :
  envelope_of data = Some env → ∃ t f, env = Transcript t f.
Proof.
  unfold envelope_of.
  destruct (results data) as [|[[|a alts] f] rest]; try done.
  intros [= <-]. eauto.
Qed.

Lemma step_transcripts s (e : event) ws :
  transcripts_to ws (Ev e :: map Act (step e s).2) = relayed s ws e.
Proof.
  unfold step.
  destruct e as [ws'|ws' m|ws' code reason|ws' err|ws' err|ws' data|ws'
                |ws' h cmd|ws' h msg stderr|ws' h];
    cbn [socket dispatch relayed]; try done.
  - apply transcripts_not_sent. cbn. apply message_not_sent.
  - rewrite on_close_eq. apply transcripts_not_sent. cbn. apply stop_not_sent.
  - rewrite on_error_eq. apply transcripts_not_sent. cbn. apply stop_not_sent.
  - rewrite recognize_on_error_eq. cbn [snd map].
    rewrite map_app, !app_comm_cons, transcripts_app.
    rewrite transcripts_not_sent by (cbn; apply stop_not_sent).
    by case_bool_decide.
  - rewrite recognize_on_data_eq.
    destruct (envelope_of data) as [env|] eqn:Henv; cbn [option_list];
      [|by destruct (_ && _)].
    destruct (envelope_of_transcript _ _ Henv) as (t & f & ->).
    destruct (decide (ws' = ws)) as [->|Hne].
    + rewrite (bool_decide_eq_true_2 (ws = ws)) by done. cbn [andb].
      case_bool_decide; cbn; [by rewrite bool_decide_eq_true_2|].
      apply (transcripts_not_sent ws (map Act _)), stop_not_sent.
    + rewrite (bool_decide_eq_false_2 (ws' = ws)) by done. cbn [andb].
      case_bool_decide; cbn; [by rewrite bool_decide_eq_false_2|].
      apply (transcripts_not_sent ws (map Act _)), stop_not_sent.
Qed.

Lemma emitted_cons ws (e : event) (evs : list event) :
  emitted ws (e :: evs) = emitted ws [e] ++ emitted ws evs.
Proof. unfold emitted. cbn. by case_match. Qed.

Lemma relayed_sublist s ws (e : event) :
  relayed s ws e `sublist_of` emitted ws [e].
Proof.
  destruct e; cbn; try done.
  case_bool_decide; cbn; [|apply sublist_nil_l].
  case_bool_decide; cbn; [|apply sublist_nil_l].
  by destruct (envelope_of data).
Qed.

Lemma relayed_open s ws (e : event) :
  ws ∈ OPEN s → relayed s ws e = emitted ws [e].
Proof.
  intros Hopen. destruct e; cbn; try done.
  rewrite (bool_decide_eq_true_2 (ws ∈ OPEN s)) by done. rewrite andb_true_r.
  case_bool_decide; [|done]. by destruct (envelope_of data).
Qed.

Lemma transcripts_run_cons s ws (e : event) (evs : list event) :
  transcripts_to ws (run s (e :: evs)).2 =
    relayed s ws e ++ transcripts_to ws (run (step e s).1 evs).2.
Proof.
  rewrite run_cons. cbn [snd]. rewrite app_comm_cons, transcripts_app.
  by rewrite step_transcripts.
Qed.

Lemma step_stays_open s ws (e : event) :
  ws ∈ OPEN s → stays_open ws [e] = true → ws ∈ OPEN (step e s).1.
Proof.
  intros Hopen He. unfold step.
  destruct (dispatch_registry (socket e s) e) as (-> & _).
  destruct e; cbn in *; try done; try set_solver.
  all: rewrite andb_true_r in He; apply negb_true_iff in He.
  all: apply bool_decide_eq_false in He; set_solver.
Qed.

(** C8: the transcripts a client receives are, in order, a subsequence of
    the results its recognition stream emitted; and while the socket stays
    open they are exactly the results that carry a top alternative, in the
    order of emission. *)
Theorem transcripts_in_emission_order (evs : list event) s ws :
  transcripts_to ws (run s evs).2 `sublist_of` emitted ws evs
  ∧ (ws ∈ OPEN s → stays_open ws evs = true →
     transcripts_to ws (run s evs).2 = emitted ws evs).
Proof.
  revert s. induction evs as [|e evs IH]; intros s.
  { split; [apply sublist_nil_l|done]. }
  rewrite transcripts_run_cons, emitted_cons.
  destruct (IH (step e s).1) as [IHsub IHeq]. split.
  - apply sublist_app; [apply relayed_sublist|done].
  - intros Hopen [He Hevs]%andb_prop.
    rewrite (relayed_open _ _ _ Hopen). f_equal.
    apply IHeq; [|done]. apply step_stays_open; [done|].
    cbn. by rewrite He.
Qed.


(** ** The conversion of a chunk *)

(** The command line the [audio_chunk] branch builds, for every message
    that takes it and whose payload [Buffer.from] accepts: the listener ends
    by setting up one ffmpeg command on the decoded bytes, with the input
    format forced to ["3gp"] (ffmpeg does not detect the container) and the
    four output options of line 248-253.  What ffmpeg makes of the bytes is
    not part of this development. *)
Lemma chunk_sets_up_ffmpeg_command s ws (m : parsed) (data : jsvalue)
    (audioBuffer : buffer) :
  chunk_of m = Some data →
  Buffer_from data = Some audioBuffer →
  ∃ pre h r,
    (step (message ws m) s).2 =
      pre ++ [spawn ws h
                {| input := audioBuffer;
                   inputFormat := "3gp";
                   outputOptions :=
                     ["-acodec pcm_s16le"; "-ar 16000"; "-ac 1"; "-f s16le"];
                   pipe_target := r;
                   pipe_end := false |}]
    ∧ spawned pre = []
    ∧ clientStreams (step (message ws m) s).1 !! ws =
        Some {| recognizeStream := Some r; ffmpegProcess := Some h |}.
Proof.
  intros Hm Hbuf. unfold step. cbn [socket dispatch].
  rewrite (on_message_chunk _ _ _ _ Hm).
  destruct (streaming_dec s ws) as [(d & r & Hd & Hr)|Hn].
  - destruct d as [r' p]; cbn in Hr; subst r'.
    rewrite (audio_chunk_streaming _ _ _ _ _ Hd), Hbuf. cbn [fst snd].
    exists ([console (ReceivedChunk audioBuffer);
             console (First16Bytes audioBuffer)] ++
            match p with
            | Some p' => [console KillingPreviousFfmpeg; kill p' "SIGKILL"]
            | None => []
            end ++ [console AttemptingRawPcm]), (fresh s), r.
    split_and!.
    + by destruct p.
    + by destruct p.
    + cbn. by rewrite lookup_insert_eq.
  - rewrite (audio_chunk_idle _ _ _ Hn). cbn zeta. cbn [fst snd].
    rewrite (audio_chunk_streaming _ _ _ _ _ (start_registers s ws)), Hbuf.
    cbn [fst snd].
    eexists [_; _; _; _; _; _], _, (fresh s). split_and!.
    + done.
    + done.
    + cbn. by rewrite lookup_insert_eq.
Qed.


(** * Further properties of the listeners *)

(** ** What is sent, and to whom *)

Lemma sent_not_sent acts :
  forallb not_sent (map Act acts) = true → sent acts = [].
Proof.
  unfold sent. induction acts as [|a acts IH]; [done|]. cbn.
  intros [Ha Hacts]%andb_prop. rewrite (IH Hacts). by destruct a.
Qed.

Lemma sent_app acts1 acts2 : sent (acts1 ++ acts2) = sent acts1 ++ sent acts2.
Proof. apply omap_app. Qed.

Lemma stop_OPEN s ws : OPEN (stopRecognitionStream ws s).1 = OPEN s.
Proof. by rewrite stop_state. Qed.

Lemma step_sent s (e : event) : sent (step e s).2 = replies s e.
Proof.
  unfold step.
  destruct e as [ws|ws m|ws code reason|ws err|ws err|ws data|ws
                |ws h cmd|ws h msg stderr|ws h];
    cbn [socket dispatch replies]; try done.
  - apply sent_not_sent, message_not_sent.
  - rewrite on_close_eq. apply sent_not_sent. cbn. apply stop_not_sent.
  - rewrite on_error_eq. apply sent_not_sent. cbn. apply stop_not_sent.
  - rewrite recognize_on_error_eq, stop_OPEN. cbn [snd].
    rewrite app_comm_cons, sent_app.
    rewrite (sent_not_sent (_ :: _)) by (cbn; apply stop_not_sent).
    by case_bool_decide.
  - rewrite recognize_on_data_eq.
    destruct (envelope_of data) as [env|]; cbn [option_list fmap list_fmap];
      [|by case_bool_decide].
    case_bool_decide; [done|]. cbn [snd].
    apply sent_not_sent. cbn. apply stop_not_sent.
Qed.

Lemma sent_to_originator s (e : event) ws (env : envelope) :
  (ws, env) ∈ sent (step e s).2 → ws = event_conn e.
Proof.
  rewrite step_sent.
  destruct e; cbn [replies event_conn]; try (by intros ?%elem_of_nil).
  - case_bool_decide; [|by intros ?%elem_of_nil].
    by intros [= -> ->]%list_elem_of_singleton.
  - case_bool_decide; [|by intros ?%elem_of_nil].
    destruct (envelope_of data); cbn; [|by intros ?%elem_of_nil].
    by intros [= -> ->]%list_elem_of_singleton.
Qed.

(** X2: whatever a listener sends goes to the socket of the connection the
    event belongs to, that socket is open, and it is the only thing the
    listener sends: either the transcript of the result just emitted or the
    notice of the recognition error just reported. *)
Theorem sends_only_to_open_originator s (e : event) ws (env : envelope) :
  (ws, env) ∈ sent (step e s).2 →
  ws = event_conn e
  ∧ ws ∈ OPEN s
  ∧ ws ∈ OPEN (step e s).1
  ∧ sent (step e s).2 = [(ws, env)]
  ∧ ((∃ data, e = recognize_data ws data ∧ envelope_of data = Some env)
     ∨ (∃ err, e = recognize_error ws err
               ∧ env = ErrorNotice
                         (String.append "Google Speech API Error: " err))).
Proof.
  rewrite step_sent. unfold step.
  destruct (dispatch_registry (socket e s) e) as (-> & _).
  destruct e as [ws'|ws' m|ws' code reason|ws' err|ws' err|ws' data|ws'
                |ws' h cmd|ws' h msg stderr|ws' h];
    cbn [socket replies event_conn]; try (by intros ?%elem_of_nil).
  - case_bool_decide; [|by intros ?%elem_of_nil].
    intros [= -> ->]%list_elem_of_singleton. split_and!; try done. eauto.
  - case_bool_decide; [|by intros ?%elem_of_nil].
    destruct (envelope_of data) as [env'|] eqn:Henv; cbn;
      [|by intros ?%elem_of_nil].
    intros [= -> ->]%list_elem_of_singleton. split_and!; try done. eauto.
Qed.

(** ** A failing recognition stream *)


(** ** Results *)

(** X9: a result without a top alternative (no result in the response, or
    a first result with no alternative) is dropped without any effect, also
    when the socket is no longer open: nothing is sent, printed or stopped. *)
Theorem empty_result_ignored s ws (data : response) :
  envelope_of data = None →
  step (recognize_data ws data) s = (s, []).
Proof.
  intros Henv. unfold step. cbn [socket dispatch].
  by rewrite recognize_on_data_eq, Henv.
Qed.

(** A result that arrives when the socket is no longer open is not sent and
    stops the session. *)
Lemma result_on_closed_socket s ws (data : response) (env : envelope) :
  envelope_of data = Some env →
  ws ∉ OPEN s →
  step (recognize_data ws data) s =
    ((stopRecognitionStream ws s).1,
     console CannotSendTranscription :: (stopRecognitionStream ws s).2).
Proof.
  intros Henv Hclosed. unfold step. cbn [socket dispatch].
  rewrite recognize_on_data_eq, Henv. by rewrite bool_decide_eq_false_2.
Qed.


(** ** The router *)




(** X10: an [end_audio] message, whatever else it carries, only prints a
    line: the registry keeps the session with its recognition stream and its
    command, nothing is destroyed or killed. *)
Theorem end_audio_keeps_the_session s ws (v : jsvalue) :
  member "type" v = Normal (Some (JStr "end_audio")) →
  step (message ws (Value v)) s = (s, [console ReceivedEndAudio]).
Proof.
  intros Hty. unfold step, on_message, chunk_payload. cbn.
  by rewrite Hty.
Qed.

(** ** What a listener never does *)

Lemma stop_not_thrown s ws :
  forallb not_thrown (map Act (stopRecognitionStream ws s).2) = true
  ∧ forallb not_failed_to_get (map Act (stopRecognitionStream ws s).2) = true.
Proof.
  unfold stopRecognitionStream.
  by destruct (clientStreams s !! ws) as [[[r|] [f|]]|].
Qed.

Lemma chunk_not_thrown s ws (data : jsvalue) :
  forallb not_thrown (map Act (audio_chunk ws data s).2) = true
  ∧ forallb not_failed_to_get (map Act (audio_chunk ws data s).2) = true.
Proof.
  destruct (streaming_dec s ws) as [(d & r & Hd & Hr)|Hn].
  - destruct d as [r' p]; cbn in Hr; subst r'.
    rewrite (audio_chunk_streaming _ _ _ _ _ Hd).
    by destruct (Buffer_from data), p.
  - rewrite (audio_chunk_idle _ _ _ Hn). cbn zeta. cbn [snd].
    rewrite (audio_chunk_streaming _ _ _ _ _ (start_registers s ws)).
    by destruct (Buffer_from data).
Qed.

Lemma elem_of_forallb {A} (f : A → bool) (l : list A) (x : A) :
  forallb f l = true → x ∈ l → f x = true.
Proof.
  intros Hl Hx%list_elem_of_In. by eapply forallb_forall in Hl.
Qed.

Lemma dispatch_not_failed_to_get s (e : event) :
  forallb not_failed_to_get (map Act (dispatch e s).2) = true.
Proof.
  destruct e as [ws|ws m|ws code reason|ws err|ws err|ws data|ws
                |ws h cmd|ws h msg stderr|ws h]; cbn [dispatch]; try done.
  - destruct (chunk_of m) as [data|] eqn:Hm.
    + rewrite (on_message_chunk _ _ _ _ Hm). apply chunk_not_thrown.
    + destruct m as [|v]; [done|]. unfold chunk_of in Hm. unfold on_message.
      destruct (member "type" v) as [type|]; [|done].
      destruct (chunk_payload type v) as [[d|]|]; [done| |done].
      by destruct (strict_eq_string type "end_audio").
  - rewrite on_close_eq. cbn. apply stop_not_thrown.
  - rewrite on_error_eq. cbn. apply stop_not_thrown.
  - rewrite recognize_on_error_eq. cbn [snd map forallb not_failed_to_get andb].
    rewrite map_app, forallb_app.
    rewrite (proj2 (stop_not_thrown s ws)). by case_bool_decide.
  - rewrite recognize_on_data_eq. destruct (envelope_of data); [|done].
    case_bool_decide; [done|]. cbn. apply stop_not_thrown.
Qed.

Lemma dispatch_thrown s (e : event) :
  forallb not_thrown (map Act (dispatch e s).2) = true
  ∨ ∃ ws, e = message ws (Value JNull).
Proof.
  destruct e as [ws|ws m|ws code reason|ws err|ws err|ws data|ws
                |ws h cmd|ws h msg stderr|ws h]; cbn [dispatch];
    try (by left).
  - destruct (chunk_of m) as [data|] eqn:Hm.
    + left. rewrite (on_message_chunk _ _ _ _ Hm). apply chunk_not_thrown.
    + destruct m as [|v]; [by left|].
      destruct v as [|b|x|str|l|kv]; [right; by exists ws|left..].
      all: unfold chunk_of in Hm; unfold on_message.
      all: destruct (member "type" _) as [type|] eqn:Hty; [|done].
      all: destruct (chunk_payload type _) as [[d|]|] eqn:Hp;
        [done| by destruct (strict_eq_string type "end_audio") |].
      all: unfold chunk_payload in Hp; cbn in Hp.
      all: destruct (strict_eq_string type "audio_chunk"); try done.
      by destruct (own_property "data" kv).
  - left. rewrite on_close_eq. cbn. apply stop_not_thrown.
  - left. rewrite on_error_eq. cbn. apply stop_not_thrown.
  - left. rewrite recognize_on_error_eq. cbn [snd map forallb not_thrown andb].
    rewrite map_app, forallb_app.
    rewrite (proj1 (stop_not_thrown s ws)). by case_bool_decide.
  - left. rewrite recognize_on_data_eq. destruct (envelope_of data); [|done].
    case_bool_decide; [done|]. cbn. apply stop_not_thrown.
Qed.

(** X3: an exception leaves a listener for exactly one kind of event: a
    message whose text is the JSON value [null].  Every other event, and
    every other message, is handled without an uncaught exception; the
    [null] message throws before anything is changed. *)
Theorem throws_only_on_null_message s (e : event) :
  (uncaught_TypeError ∈ (step e s).2 ↔ ∃ ws, e = message ws (Value JNull))
  ∧ (uncaught_TypeError ∈ (step e s).2 →
     step e s = (s, [uncaught_TypeError])).
Proof.
  assert (uncaught_TypeError ∈ (step e s).2 → ∃ ws, e = message ws (Value JNull))
    as Honly.
  { unfold step. intros Hin.
    destruct (dispatch_thrown (socket e s) e) as [Hnot|]; [|done].
    apply (list_elem_of_fmap_2 Act) in Hin.
    by apply (elem_of_forallb _ _ _ Hnot) in Hin. }
  split; [split; [done|]|].
  - intros [ws ->]. cbn. set_solver.
  - intros [ws ->]%Honly. reflexivity.
Qed.

(** X4: the guard after [startRecognitionStream] in the [audio_chunk]
    branch never fires: no listener prints its line, in any state; and in
    every run every registry entry holds a recognition stream, so the branch
    is entered with a stream or creates one. *)
Theorem failed_to_get_stream_unreachable (evs : list event) s (e : event) :
  (console FailedToGetStream ∉ (step e s).2)
  ∧ ∀ ws d, clientStreams (run initial evs).1 !! ws = Some d →
            is_Some (recognizeStream d).
Proof.
  split.
  - unfold step. intros Hin.
    apply (list_elem_of_fmap_2 Act) in Hin.
    by apply (elem_of_forallb _ _ _ (dispatch_not_failed_to_get _ e)) in Hin.
  - destruct (consistent_run evs _ _ consistent_initial) as [_ _ He _].
    exact He.
Qed.

(** ** A payload that cannot be decoded *)

(** X5: when [Buffer.from] throws on the payload of a chunk, the listener
    kills nothing, spawns nothing and destroys nothing.  On a streaming
    session the state is left as it is, so the running command goes on; on
    an idle one the recognition stream has already been opened and stays
    registered, without a command. *)
Theorem undecodable_chunk s ws (m : parsed) (data : jsvalue) :
  chunk_of m = Some data →
  Buffer_from data = None →
  killed (step (message ws m) s).2 = []
  ∧ spawned (step (message ws m) s).2 = []
  ∧ destroyed (step (message ws m) s).2 = []
  ∧ (streaming s ws →
     step (message ws m) s = (s, [console ErrorProcessingChunk]))
  ∧ (¬ streaming s ws →
     opened ws (step (message ws m) s).2 = [fresh s]
     ∧ clientStreams (step (message ws m) s).1 !! ws =
         Some {| recognizeStream := Some (fresh s); ffmpegProcess := None |}).
Proof.
  intros Hm Hbuf. unfold step. cbn [socket dispatch].
  rewrite (on_message_chunk _ _ _ _ Hm).
  destruct (streaming_dec s ws) as [(d & r & Hd & Hr)|Hn].
  - destruct d as [r' p]; cbn in Hr; subst r'.
    rewrite (audio_chunk_streaming _ _ _ _ _ Hd), Hbuf.
    split_and!; try done. intros Hn. destruct Hn. by eexists _, r.
  - rewrite (audio_chunk_idle _ _ _ Hn). cbn zeta. cbn [fst snd].
    rewrite (audio_chunk_streaming _ _ _ _ _ (start_registers s ws)), Hbuf.
    split_and!; try done. intros _. cbn.
    rewrite bool_decide_eq_true_2 by done. split; [done|].
    apply lookup_insert_eq.
Qed.


(** ** Handles belong to one connection *)

Local Ltac find_action :=
  repeat first [apply list_elem_of_here | apply list_elem_of_further].

(** What a listener does to the entries: those of other connections are
    left alone; a handle of the event's own entry afterwards was there
    before or has just been created by the listener, for that connection,
    under a new identity; what it destroys or kills it took from the
    event's own entry; and what it spawns is for the event's connection. *)
Lemma chunk_ownership s ws (data : jsvalue) :
  (fresh s ≤ fresh (audio_chunk ws data s).1)%nat
  ∧ (∀ d' h, clientStreams (audio_chunk ws data s).1 !! ws = Some d' →
       (recognizeStream d' = Some h →
          ((fresh s ≤ h < fresh (audio_chunk ws data s).1)%nat
           ∧ ∃ req, streamingRecognize ws h req ∈ (audio_chunk ws data s).2)
          ∨ ∃ d, clientStreams s !! ws = Some d ∧ recognizeStream d = Some h)
       ∧ (ffmpegProcess d' = Some h →
          ((fresh s ≤ h < fresh (audio_chunk ws data s).1)%nat
           ∧ ∃ cmd, spawn ws h cmd ∈ (audio_chunk ws data s).2)
          ∨ ∃ d, clientStreams s !! ws = Some d ∧ ffmpegProcess d = Some h))
  ∧ (∀ h, h ∈ killed (audio_chunk ws data s).2 →
          ∃ d, clientStreams s !! ws = Some d ∧ ffmpegProcess d = Some h)
  ∧ destroyed (audio_chunk ws data s).2 = []
  ∧ (∀ c h cmd, (c, h, cmd) ∈ spawned (audio_chunk ws data s).2 → c = ws).
Proof.
  destruct (streaming_dec s ws) as [(d & r & Hd & Hr)|Hn].
  - destruct d as [r' p]; cbn in Hr; subst r'.
    destruct (chunk_streaming_observed s ws ws r p data Hd)
      as (_ & Hdes & Hsp & Hreg).
    split_and!; [| | |done|by intros c h cmd (-> & _)%Hsp].
    + rewrite (audio_chunk_streaming _ _ _ _ _ Hd).
      destruct (Buffer_from data); cbn; lia.
    + intros d' h. rewrite Hreg. intros [= <-]. cbn. split.
      * intros [= <-]. right. eauto.
      * rewrite (audio_chunk_streaming _ _ _ _ _ Hd).
        destruct (Buffer_from data) as [b|]; cbn [fst snd fresh].
        -- intros [= <-]. left. split; [lia|]. eexists.
           rewrite !elem_of_app. right; right. find_action.
        -- intros ->. right. eauto.
    + rewrite (audio_chunk_streaming _ _ _ _ _ Hd).
      destruct (Buffer_from data) as [b|]; cbn [snd];
        [|by intros h ?%elem_of_nil].
      destruct p as [p|]; cbn; [|by intros h ?%elem_of_nil].
      intros h ->%list_elem_of_singleton. eauto.
  - destruct (chunk_idle_observed s ws ws data Hn) as (_ & Hdes & Hsp & Hreg).
    rewrite (audio_chunk_idle _ _ _ Hn) in *. cbn zeta in *. cbn [fst snd] in *.
    rewrite (audio_chunk_streaming _ _ _ _ _ (start_registers s ws)) in *.
    split_and!; [| | |done|by intros c h cmd (-> & _)%Hsp].
    + destruct (Buffer_from data); cbn; lia.
    + intros d' h. rewrite Hreg. intros [= <-]. cbn. split.
      * intros [= <-]. left.
        split; [destruct (Buffer_from data); cbn; lia|].
        eexists. find_action.
      * destruct (Buffer_from data) as [b|]; cbn [fst snd fresh]; [|done].
        intros [= <-]. left. split; [lia|]. eexists. find_action.
    + destruct (Buffer_from data) as [b|]; cbn; by intros h ?%elem_of_nil.
Qed.

Lemma dispatch_ownership s (e : event) :
  (fresh s ≤ fresh (dispatch e s).1)%nat
  ∧ (∀ ws, ws ≠ event_conn e →
       clientStreams (dispatch e s).1 !! ws = clientStreams s !! ws)
  ∧ (∀ d' h, clientStreams (dispatch e s).1 !! event_conn e = Some d' →
       (recognizeStream d' = Some h →
          ((fresh s ≤ h < fresh (dispatch e s).1)%nat
           ∧ ∃ req, streamingRecognize (event_conn e) h req ∈ (dispatch e s).2)
          ∨ ∃ d, clientStreams s !! event_conn e = Some d
                 ∧ recognizeStream d = Some h)
       ∧ (ffmpegProcess d' = Some h →
          ((fresh s ≤ h < fresh (dispatch e s).1)%nat
           ∧ ∃ cmd, spawn (event_conn e) h cmd ∈ (dispatch e s).2)
          ∨ ∃ d, clientStreams s !! event_conn e = Some d
                 ∧ ffmpegProcess d = Some h))
  ∧ (∀ h, h ∈ destroyed (dispatch e s).2 →
          ∃ d, clientStreams s !! event_conn e = Some d
               ∧ recognizeStream d = Some h)
  ∧ (∀ h, h ∈ killed (dispatch e s).2 →
          ∃ d, clientStreams s !! event_conn e = Some d
               ∧ ffmpegProcess d = Some h)
  ∧ (∀ c h cmd, (c, h, cmd) ∈ spawned (dispatch e s).2 → c = event_conn e).
Proof.
  destruct (dispatch_handles s e) as (pre & post & Hpre & Hpost & Hcases).
  destruct Hcases as [(ws0 & m & data & -> & Hm & -> & _ & _)
                     |[(Hstops & ->)|(Hmsg & Hstops & ->)]].
  - cbn [event_conn].
    destruct (chunk_ownership s ws0 data) as (Hf & Hown & Hk & Hd & Hsp).
    destruct (chunk_state s ws0 data) as [_ Hother].
    split_and!; try done. rewrite Hd. by intros h ?%elem_of_nil.
  - cbn [fst snd]. rewrite stop_state. cbn [clientStreams fresh set_clientStreams].
    destruct (quiet_observed pre 0 Hpre) as (_ & Hd1 & Hk1 & Hs1).
    destruct (quiet_observed post 0 Hpost) as (_ & Hd2 & Hk2 & Hs2).
    destruct (stop_observed s (event_conn e) 0) as (_ & Hs & Hd & Hk).
    unfold destroyed, killed, spawned in *.
    rewrite !omap_app, Hd1, Hd2, Hk1, Hk2, Hs1, Hs2, Hs, Hd, Hk.
    cbn [app]. rewrite !app_nil_r.
    split_and!; [done| | | | |by intros c h cmd ?%elem_of_nil].
    + intros ws Hne. by rewrite lookup_delete_ne.
    + intros d' h. by rewrite lookup_delete_eq.
    + intros h. destruct (clientStreams s !! event_conn e) as [d|]; cbn;
        [|by intros ?%elem_of_nil].
      destruct (recognizeStream d) as [r|] eqn:Hr; cbn;
        [|by intros ?%elem_of_nil].
      intros ->%list_elem_of_singleton. eauto.
    + intros h. destruct (clientStreams s !! event_conn e) as [d|]; cbn;
        [|by intros ?%elem_of_nil].
      destruct (ffmpegProcess d) as [p|] eqn:Hp; cbn;
        [|by intros ?%elem_of_nil].
      intros ->%list_elem_of_singleton. eauto.
  - cbn [fst snd].
    destruct (quiet_observed pre 0 Hpre) as (_ & -> & -> & ->).
    split_and!; try done.
    + intros d' h Hd'. split; intros Hh; right; eauto.
    + by intros h ?%elem_of_nil.
    + by intros h ?%elem_of_nil.
    + by intros c h cmd ?%elem_of_nil.
Qed.


Lemma handles_of_elem (d : clientData) h :
  h ∈ handles_of d ↔ recognizeStream d = Some h ∨ ffmpegProcess d = Some h.
Proof.
  assert (∀ o : option handle, h ∈ option_list o ↔ o = Some h) as Hopt.
  { intros [x|]; cbn.
    - rewrite list_elem_of_singleton. split; congruence.
    - rewrite elem_of_nil. split; [done|congruence]. }
  unfold handles_of. by rewrite elem_of_app, !Hopt.
Qed.

Lemma separate_initial : separate initial.
Proof.
  split; [intros ws d h Hd|intros ws1 ws2 d1 d2 h Hd]; cbn in Hd;
    by rewrite lookup_empty in Hd.
Qed.

Lemma separate_step s (e : event) : separate s → separate (step e s).1.
Proof.
  intros [Hb Hdj]. unfold step.
  rewrite <- (socket_clientStreams s e), <- (socket_fresh s e) in Hb.
  rewrite <- (socket_clientStreams s e) in Hdj.
  generalize dependent (socket e s). clear s. intros s Hb Hdj.
  destruct (dispatch_ownership s e) as (Hf & Hother & Hown & _).
  assert (∀ d' h, clientStreams (dispatch e s).1 !! event_conn e = Some d' →
            h ∈ handles_of d' →
            (fresh s ≤ h < fresh (dispatch e s).1)%nat
            ∨ ∃ d, clientStreams s !! event_conn e = Some d ∧ h ∈ handles_of d)
    as Hown'.
  { intros d' h Hd' [Hr|Hp]%handles_of_elem.
    - destruct (proj1 (Hown d' h Hd') Hr) as [[? _]|(d & ? & ?)]; [by left|].
      right. exists d. rewrite handles_of_elem. auto.
    - destruct (proj2 (Hown d' h Hd') Hp) as [[? _]|(d & ? & ?)]; [by left|].
      right. exists d. rewrite handles_of_elem. auto. }
  split.
  - intros ws d h Hd Hh. destruct (decide (ws = event_conn e)) as [->|Hne].
    + destruct (Hown' _ _ Hd Hh) as [?|(d0 & Hd0 & Hh0)]; [lia|].
      specialize (Hb _ _ _ Hd0 Hh0). lia.
    + rewrite Hother in Hd by done. specialize (Hb _ _ _ Hd Hh). lia.
  - intros ws1 ws2 d1 d2 h Hd1 Hd2 Hh1 Hh2.
    destruct (decide (ws1 = ws2)) as [|Hne12]; [done|]. exfalso.
    destruct (decide (ws1 = event_conn e)) as [->|Hne1];
      destruct (decide (ws2 = event_conn e)) as [->|Hne2]; try done.
    + rewrite Hother in Hd2 by done.
      destruct (Hown' _ _ Hd1 Hh1) as [?|(d0 & Hd0 & Hh0)].
      * specialize (Hb _ _ _ Hd2 Hh2). lia.
      * by specialize (Hdj _ _ _ _ _ Hd0 Hd2 Hh0 Hh2).
    + rewrite Hother in Hd1 by done.
      destruct (Hown' _ _ Hd2 Hh2) as [?|(d0 & Hd0 & Hh0)].
      * specialize (Hb _ _ _ Hd1 Hh1). lia.
      * by specialize (Hdj _ _ _ _ _ Hd1 Hd0 Hh1 Hh0).
    + rewrite Hother in Hd1, Hd2 by done.
      by specialize (Hdj _ _ _ _ _ Hd1 Hd2 Hh1 Hh2).
Qed.

Lemma separate_run (evs : list event) s : separate s → separate (run s evs).1.
Proof.
  revert s. induction evs as [|e evs IH]; intros s Hs; [done|].
  rewrite run_cons. cbn [fst]. by apply IH, separate_step.
Qed.

Lemma owned_step s log (e : event) :
  owned s log → owned (step e s).1 (log ++ Ev e :: map Act (step e s).2).
Proof.
  intros Ho. unfold step. unfold owned in Ho.
  rewrite <- (socket_clientStreams s e) in Ho.
  generalize dependent (socket e s). clear s. intros s Ho.
  destruct (dispatch_ownership s e) as (_ & Hother & Hown & _).
  intros ws d Hd. destruct (decide (ws = event_conn e)) as [->|Hne].
  - split.
    + intros r Hr.
      destruct (proj1 (Hown d r Hd) Hr) as [[_ [req Hin]]|(d0 & Hd0 & Hr0)].
      * exists req. rewrite elem_of_app. right. apply list_elem_of_further.
        by apply (list_elem_of_fmap_2 Act).
      * destruct (proj1 (Ho _ _ Hd0) r Hr0) as [req Hin].
        exists req. rewrite elem_of_app. by left.
    + intros p Hp.
      destruct (proj2 (Hown d p Hd) Hp) as [[_ [cmd Hin]]|(d0 & Hd0 & Hp0)].
      * exists cmd. rewrite elem_of_app. right. apply list_elem_of_further.
        by apply (list_elem_of_fmap_2 Act).
      * destruct (proj2 (Ho _ _ Hd0) p Hp0) as [cmd Hin].
        exists cmd. rewrite elem_of_app. by left.
  - rewrite Hother in Hd by done. split.
    + intros r Hr. destruct (proj1 (Ho _ _ Hd) r Hr) as [req Hin].
      exists req. rewrite elem_of_app. by left.
    + intros p Hp. destruct (proj2 (Ho _ _ Hd) p Hp) as [cmd Hin].
      exists cmd. rewrite elem_of_app. by left.
Qed.

Lemma owned_run (evs : list event) s log :
  owned s log → owned (run s evs).1 (log ++ (run s evs).2).
Proof.
  revert s log. induction evs as [|e evs IH]; intros s log Ho.
  { cbn. by rewrite app_nil_r. }
  rewrite run_cons. cbn [fst snd].
  rewrite app_comm_cons, app_assoc. by apply IH, owned_step.
Qed.

Lemma step_ownership s (e : event) :
  (∀ ws, ws ≠ event_conn e →
     clientStreams (step e s).1 !! ws = clientStreams s !! ws)
  ∧ (∀ h, h ∈ destroyed (step e s).2 →
          ∃ d, clientStreams s !! event_conn e = Some d
               ∧ recognizeStream d = Some h)
  ∧ (∀ h, h ∈ killed (step e s).2 →
          ∃ d, clientStreams s !! event_conn e = Some d
               ∧ ffmpegProcess d = Some h)
  ∧ (∀ c h cmd, (c, h, cmd) ∈ spawned (step e s).2 → c = event_conn e).
Proof.
  unfold step. rewrite <- (socket_clientStreams s e).
  destruct (dispatch_ownership (socket e s) e) as (_ & ? & _ & ? & ? & ?).
  done.
Qed.

(** X6: in every run, a listener destroys only a recognition stream that
    was opened earlier in the run for the event's own connection, and kills
    only an ffmpeg command that was spawned earlier in the run for that
    connection. *)
Theorem releases_only_own_handles (evs : list event) (e : event) h :
  (h ∈ destroyed (step e (run initial evs).1).2 →
   ∃ req, Act (streamingRecognize (event_conn e) h req) ∈ (run initial evs).2)
  ∧ (h ∈ killed (step e (run initial evs).1).2 →
     ∃ cmd, Act (spawn (event_conn e) h cmd) ∈ (run initial evs).2).
Proof.
  assert (owned (buffer:=buffer) initial []) as Hinit.
  { intros ws d Hd. cbn in Hd. by rewrite lookup_empty in Hd. }
  pose proof (owned_run evs _ _ Hinit) as Ho. cbn [app] in Ho.
  destruct (step_ownership (run initial evs).1 e) as (_ & Hdes & Hkill & _).
  split.
  - intros (d & Hd & Hr)%Hdes. by apply (Ho _ _ Hd).
  - intros (d & Hd & Hp)%Hkill. by apply (Ho _ _ Hd).
Qed.


(** ** Runs, piece by piece *)

Lemma run_app s (evs1 evs2 : list event) :
  run s (evs1 ++ evs2) =
    ((run (run s evs1).1 evs2).1, (run s evs1).2 ++ (run (run s evs1).1 evs2).2).
Proof.
  revert s. induction evs1 as [|e evs1 IH]; intros s.
  { cbn. by destruct (run s evs2). }
  rewrite <- app_comm_cons, !run_cons, IH. cbn [fst snd].
  by rewrite app_comm_cons, app_assoc.
Qed.

Lemma stops_socket s (e : event) : stops (socket e s) e = stops s e.
Proof. by destruct e. Qed.

(** ** A command that has finished *)

(** X11: the ["end"] listener of an ffmpeg command leaves the registry
    entry as it is, with the command still recorded in it; so although the
    command no longer runs, the listener of the next chunk that is accepted
    kills it again before it spawns the next one. *)
Theorem finished_command_still_killed s L ws r p (m : parsed)
    (data : jsvalue) (audioBuffer : buffer) :
  clientStreams s !! ws =
    Some {| recognizeStream := Some r; ffmpegProcess := Some p |} →
  chunk_of m = Some data →
  Buffer_from data = Some audioBuffer →
  (step (ffmpeg_end ws p) s).1 = s
  ∧ transcoding (live_from L [Ev (buffer:=buffer) (ffmpeg_end ws p)]) !! p = None
  ∧ killed (step (message ws m) (step (ffmpeg_end ws p) s).1).2 = [p]
  ∧ spawned (step (message ws m) (step (ffmpeg_end ws p) s).1).2 =
      [(ws, fresh s,
        {| input := audioBuffer; inputFormat := "3gp";
           outputOptions := pcm_options; pipe_target := r;
           pipe_end := false |})].
Proof.
  intros Hd Hm Hbuf. split; [done|]. split; [cbn; apply lookup_delete_eq|].
  unfold step. cbn [socket dispatch ffmpeg_on_end fst].
  rewrite (on_message_chunk _ _ _ _ Hm).
  by rewrite (audio_chunk_streaming _ _ _ _ _ Hd), Hbuf.
Qed.

(** ** No handle is released twice *)

Lemma released_app log1 log2 :
  released (log1 ++ log2) = released log1 ++ released log2.
Proof. apply omap_app. Qed.

Lemma released_event (e : event) log : released (Ev e :: log) = released log.
Proof. reflexivity. Qed.

Lemma released_quiet acts :
  forallb quiet acts = true → released (map Act acts) = [].
Proof.
  unfold released. induction acts as [|a acts IH]; [done|]. cbn.
  intros [Ha Hacts]%andb_prop. rewrite (IH Hacts). by destruct a.
Qed.

Lemma stop_released s ws :
  released (map Act (stopRecognitionStream ws s).2) =
    from_option handles_of [] (clientStreams s !! ws).
Proof.
  unfold stopRecognitionStream.
  by destruct (clientStreams s !! ws) as [[[r|] [f|]]|].
Qed.

(** What a listener releases: nothing; or, when it stops the session, the
    handles of the event's entry, which is gone afterwards; or, for a chunk
    that is accepted on a session that has a command, that command, which
    the entry replaces by a new one. *)
Lemma dispatch_released s (e : event) :
  released (map Act (dispatch e s).2) = []
  ∨ (released (map Act (dispatch e s).2) =
       from_option handles_of [] (clientStreams s !! event_conn e)
     ∧ clientStreams (dispatch e s).1 !! event_conn e = None)
  ∨ (∃ r p, clientStreams s !! event_conn e =
              Some {| recognizeStream := Some r; ffmpegProcess := Some p |}
            ∧ released (map Act (dispatch e s).2) = [p]
            ∧ clientStreams (dispatch e s).1 !! event_conn e =
                Some {| recognizeStream := Some r;
                        ffmpegProcess := Some (fresh s) |}).
Proof.
  destruct (dispatch_handles s e) as (pre & post & Hpre & Hpost & Hcases).
  destruct Hcases as [(ws0 & m & data & -> & Hm & -> & _ & _)
                     |[(Hstops & ->)|(Hmsg & Hstops & ->)]].
  - cbn [event_conn].
    destruct (streaming_dec s ws0) as [(d & r & Hd & Hr)|Hn].
    + destruct d as [r' p]; cbn in Hr; subst r'.
      destruct (chunk_streaming_observed s ws0 ws0 r p data Hd)
        as (_ & _ & _ & Hreg).
      rewrite Hreg, (audio_chunk_streaming _ _ _ _ _ Hd).
      destruct (Buffer_from data) as [b|]; cbn [snd]; [|by left].
      destruct p as [p|]; [|by left].
      right; right. by exists r, p.
    + left. rewrite (audio_chunk_idle _ _ _ Hn). cbn zeta. cbn [snd].
      rewrite (audio_chunk_streaming _ _ _ _ _ (start_registers s ws0)).
      by destruct (Buffer_from data).
  - right; left. cbn [fst snd]. rewrite stop_state. cbn.
    rewrite lookup_delete_eq. split; [|done].
    rewrite !map_app, !released_app, stop_released.
    by rewrite (released_quiet _ Hpre), (released_quiet _ Hpost), app_nil_r.
  - left. cbn [fst snd]. by apply released_quiet.
Qed.

Lemma dispatch_entry_nodup s (e : event) :
  separate s →
  (∀ ws d, clientStreams s !! ws = Some d → NoDup (handles_of d)) →
  ∀ ws d, clientStreams (dispatch e s).1 !! ws = Some d → NoDup (handles_of d).
Proof.
  intros [Hb _] Hnd ws d' Hd'.
  destruct (decide (ws = event_conn e)) as [->|Hne].
  2:{ destruct (dispatch_ownership s e) as (_ & Hother & _).
      rewrite Hother in Hd' by done. by eapply Hnd. }
  destruct (dispatch_handles s e) as (pre & post & Hpre & Hpost & Hcases).
  destruct Hcases as [(ws0 & m & data & -> & Hm & Heq & _ & _)
                     |[(Hstops & Heq)|(Hmsg & Hstops & Heq)]];
    rewrite Heq in Hd'; clear Heq.
  - cbn [event_conn] in *.
    destruct (streaming_dec s ws0) as [(d & r & Hd & Hr)|Hn].
    + destruct d as [r' p]; cbn in Hr; subst r'.
      destruct (chunk_streaming_observed s ws0 ws0 r p data Hd)
        as (_ & _ & _ & Hreg).
      rewrite Hreg in Hd'. injection Hd' as <-.
      destruct (Buffer_from data) as [b|]; [|by eapply Hnd].
      assert (r < fresh s) as Hlt.
      { apply (Hb _ _ _ Hd), handles_of_elem. by left. }
      cbn. apply NoDup_cons. split; [|apply NoDup_singleton].
      rewrite list_elem_of_singleton. lia.
    + destruct (chunk_idle_observed s ws0 ws0 data Hn) as (_ & _ & _ & Hreg).
      rewrite Hreg in Hd'. injection Hd' as <-.
      destruct (Buffer_from data) as [b|]; cbn; [|apply NoDup_singleton].
      apply NoDup_cons. split; [|apply NoDup_singleton].
      rewrite list_elem_of_singleton. lia.
  - cbn [fst] in Hd'. rewrite stop_state in Hd'. cbn in Hd'.
    by rewrite lookup_delete_eq in Hd'.
  - by eapply Hnd.
Qed.

Lemma tidy_initial : tidy (buffer:=buffer) initial [].
Proof.
  split; cbn.
  - apply separate_initial.
  - intros ws d Hd. by rewrite lookup_empty in Hd.
  - by intros h ?%elem_of_nil.
  - by intros h ws d ?%elem_of_nil.
  - apply NoDup_nil_2.
Qed.

Lemma tidy_step s log (e : event) :
  tidy s log → tidy (step e s).1 (log ++ Ev e :: map Act (step e s).2).
Proof.
  intros [Hsep Hnd Hold Hgone Honce].
  pose proof (separate_step s e Hsep) as Hsep'.
  revert Hsep'. unfold step.
  assert (separate (socket e s)) as Hsep0.
  { destruct Hsep as [Hb Hdj]. split.
    - intros ws d h. rewrite socket_clientStreams, socket_fresh. apply Hb.
    - intros ws1 ws2 d1 d2 h. rewrite socket_clientStreams. apply Hdj. }
  clear Hsep.
  rewrite <- (socket_clientStreams s e) in Hnd, Hgone.
  rewrite <- (socket_fresh s e) in Hold.
  generalize dependent (socket e s). clear s. intros s Hnd Hold Hgone Hsep Hsep'.
  destruct (dispatch_ownership s e) as (Hf & Hother & Hown & _).
  assert (∀ h, h ∈ released (map Act (dispatch e s).2) →
            ∃ d, clientStreams s !! event_conn e = Some d ∧ h ∈ handles_of d)
    as Hrel_own.
  { intros h.
    destruct (dispatch_released s e) as [->|[[-> _]|(r & p & Hd & -> & _)]].
    - by intros ?%elem_of_nil.
    - destruct (clientStreams s !! event_conn e) as [d|]; cbn;
        [eauto|by intros ?%elem_of_nil].
    - intros ->%list_elem_of_singleton. eexists. split; [done|].
      apply handles_of_elem. by right. }
  assert (NoDup (released (map Act (dispatch e s).2))) as Hrel_nodup.
  { destruct (dispatch_released s e) as [->|[[-> _]|(r & p & Hd & -> & _)]].
    - apply NoDup_nil_2.
    - destruct (clientStreams s !! event_conn e) as [d|] eqn:Hd; cbn;
        [by eapply Hnd|apply NoDup_nil_2].
    - apply NoDup_singleton. }
  split; rewrite ?released_app, ?released_event.
  - done.
  - by apply dispatch_entry_nodup.
  - intros h [Hh|Hh]%elem_of_app.
    + specialize (Hold _ Hh). lia.
    + destruct (Hrel_own _ Hh) as (d & Hd & Hin).
      destruct Hsep as [Hb _]. specialize (Hb _ _ _ Hd Hin). lia.
  - intros h ws d' [Hh|Hh]%elem_of_app Hd' Hin.
    + destruct (decide (ws = event_conn e)) as [->|Hne].
      * apply handles_of_elem in Hin as [Hr|Hp].
        -- destruct (proj1 (Hown _ _ Hd') Hr) as [[? _]|(d & Hd & Hr0)].
           ++ specialize (Hold _ Hh). lia.
           ++ apply (Hgone _ _ _ Hh Hd), handles_of_elem. by left.
        -- destruct (proj2 (Hown _ _ Hd') Hp) as [[? _]|(d & Hd & Hp0)].
           ++ specialize (Hold _ Hh). lia.
           ++ apply (Hgone _ _ _ Hh Hd), handles_of_elem. by right.
      * rewrite Hother in Hd' by done. by apply (Hgone _ _ _ Hh Hd').
    + destruct (Hrel_own _ Hh) as (d & Hd & Hin0).
      destruct (decide (ws = event_conn e)) as [->|Hne].
      * destruct (dispatch_released s e)
          as [Heq|[[_ Hnone]|(r & p & Hd0 & Heq & Hd1)]].
        -- rewrite Heq in Hh. by apply elem_of_nil in Hh.
        -- congruence.
        -- rewrite Heq in Hh. apply list_elem_of_singleton in Hh as ->.
           rewrite Hd1 in Hd'. injection Hd' as <-.
           apply handles_of_elem in Hin as [[= <-]|[= Hp]].
           ++ specialize (Hnd _ _ Hd0). cbn in Hnd.
              apply NoDup_cons in Hnd as [Hnd _].
              apply Hnd, list_elem_of_here.
           ++ destruct Hsep as [Hb _].
              assert (p < fresh s); [|lia].
              apply (Hb _ _ _ Hd0), handles_of_elem. by right.
      * rewrite Hother in Hd' by done.
        destruct Hsep as [_ Hdj]. by specialize (Hdj _ _ _ _ _ Hd' Hd Hin Hin0).
  - apply NoDup_app. split_and!; [done| |done].
    intros h Hh (d & Hd & Hin)%Hrel_own. by apply (Hgone _ _ _ Hh Hd).
Qed.

Lemma tidy_run (evs : list event) s log :
  tidy s log → tidy (run s evs).1 (log ++ (run s evs).2).
Proof.
  revert s log. induction evs as [|e evs IH]; intros s log Ht.
  { cbn. by rewrite app_nil_r. }
  rewrite run_cons. cbn [fst snd].
  rewrite app_comm_cons, app_assoc. by apply IH, tidy_step.
Qed.

(** X14: in every run no handle is released twice: each recognition stream
    is destroyed at most once and each ffmpeg command killed at most once,
    however many events ask for the session to be stopped; and a handle that
    has been released is in no registry entry any more. *)
Theorem no_handle_released_twice (evs : list event) :
  NoDup (released (run initial evs).2)
  ∧ ∀ h ws d, h ∈ released (run initial evs).2 →
              clientStreams (run initial evs).1 !! ws = Some d →
              h ∉ handles_of d.
Proof.
  destruct (tidy_run evs _ _ tidy_initial) as [_ _ _ Hgone Honce].
  by split.
Qed.


(** ** No handle leaves the registry unreleased *)

Lemma created_app log1 log2 :
  created (log1 ++ log2) = created log1 ++ created log2.
Proof. apply omap_app. Qed.

Lemma created_event (e : event) log : created (Ev e :: log) = created log.
Proof. reflexivity. Qed.

Lemma created_quiet acts :
  forallb quiet acts = true → created (map Act acts) = [].
Proof.
  unfold created. induction acts as [|a acts IH]; [done|]. cbn.
  intros [Ha Hacts]%andb_prop. rewrite (IH Hacts). by destruct a.
Qed.

Lemma stop_created s ws :
  created (map Act (stopRecognitionStream ws s).2) = [].
Proof.
  unfold stopRecognitionStream.
  by destruct (clientStreams s !! ws) as [[[r|] [f|]]|].
Qed.

(** What a listener creates is held by the event's entry afterwards, and
    what the event's entry held is still held by it or has been released by
    the listener, provided the entry had a recognition stream. *)
Lemma dispatch_accounting s (e : event) :
  (∀ d, clientStreams s !! event_conn e = Some d → is_Some (recognizeStream d)) →
  (∀ ws h, (ws, h) ∈ created (map Act (dispatch e s).2) →
     ws = event_conn e
     ∧ ∃ d', clientStreams (dispatch e s).1 !! event_conn e = Some d'
             ∧ h ∈ handles_of d')
  ∧ (∀ d h, clientStreams s !! event_conn e = Some d → h ∈ handles_of d →
       (∃ d', clientStreams (dispatch e s).1 !! event_conn e = Some d'
              ∧ h ∈ handles_of d')
       ∨ h ∈ released (map Act (dispatch e s).2)).
Proof.
  intros Hstream.
  destruct (dispatch_handles s e) as (pre & post & Hpre & Hpost & Hcases).
  destruct Hcases as [(ws0 & m & data & -> & Hm & -> & _ & _)
                     |[(Hstops & ->)|(Hmsg & Hstops & ->)]].
  - cbn [event_conn] in *.
    destruct (streaming_dec s ws0) as [(d & r & Hd & Hr)|Hn].
    + destruct d as [r' p]; cbn in Hr; subst r'.
      destruct (chunk_streaming_observed s ws0 ws0 r p data Hd)
        as (_ & _ & _ & Hreg).
      rewrite Hreg, (audio_chunk_streaming _ _ _ _ _ Hd).
      destruct (Buffer_from data) as [b|]; cbn [snd].
      * split.
        -- intros ws h Hin.
           assert ((ws, h) = (ws0, fresh s)) as [= -> ->].
           { destruct p; cbn in Hin; by apply list_elem_of_singleton in Hin. }
           split; [done|]. eexists. split; [done|].
           apply handles_of_elem. by right.
        -- intros d h. rewrite Hd. intros [= <-] [[= <-]|Hp]%handles_of_elem.
           ++ left. eexists. split; [done|]. apply handles_of_elem. by left.
           ++ cbn in Hp. subst p. right. cbn. find_action.
      * split; [by intros ws h ?%elem_of_nil|].
        intros d h. rewrite Hd. intros [= <-] Hin. left. eauto.
    + destruct (chunk_idle_observed s ws0 ws0 data Hn) as (_ & _ & _ & Hreg).
      rewrite Hreg, (audio_chunk_idle _ _ _ Hn). cbn zeta. cbn [snd].
      rewrite (audio_chunk_streaming _ _ _ _ _ (start_registers s ws0)).
      split.
      * intros ws h Hin.
        destruct (Buffer_from data) as [b|]; cbn in Hin.
        -- apply elem_of_cons in Hin as [[= -> ->]|Hin].
           { split; [done|]. eexists. split; [done|].
             apply handles_of_elem. by left. }
           apply list_elem_of_singleton in Hin as [= -> ->].
           split; [done|]. eexists. split; [done|].
           apply handles_of_elem. by right.
        -- apply list_elem_of_singleton in Hin as [= -> ->].
           split; [done|]. eexists. split; [done|].
           apply handles_of_elem. by left.
      * intros d h Hd _. destruct (Hstream _ Hd) as [r Hr].
        destruct Hn. by exists d, r.
  - cbn [fst snd]. split.
    + rewrite !map_app, !created_app, stop_created.
      rewrite (created_quiet _ Hpre), (created_quiet _ Hpost).
      by intros ws h ?%elem_of_nil.
    + intros d h Hd Hin. right.
      rewrite !map_app, !released_app, stop_released, Hd.
      rewrite !elem_of_app. right; left. exact Hin.
  - cbn [fst snd]. split.
    + rewrite (created_quiet _ Hpre). by intros ws h ?%elem_of_nil.
    + intros d h Hd Hin. left. eauto.
Qed.

Lemma accounted_step s log L (e : event) :
  consistent s L →
  accounted s log →
  accounted (step e s).1 (log ++ Ev e :: map Act (step e s).2).
Proof.
  intros [_ _ He _] Hacc. unfold step. unfold accounted in Hacc.
  rewrite <- (socket_clientStreams s e) in He, Hacc.
  generalize dependent (socket e s). clear s. intros s He Hacc.
  destruct (dispatch_ownership s e) as (_ & Hother & _).
  destruct (dispatch_accounting s e (He _)) as [Hnew Hkept].
  intros ws h.
  rewrite created_app, created_event, released_app, released_event.
  intros [Hin|Hin]%elem_of_app.
  - destruct (Hacc _ _ Hin) as [(d & Hd & Hh)|Hrel].
    + destruct (decide (ws = event_conn e)) as [->|Hne].
      * destruct (Hkept _ _ Hd Hh) as [?|?]; [by left|].
        right. rewrite elem_of_app. by right.
      * left. exists d. by rewrite Hother.
    + right. rewrite elem_of_app. by left.
  - destruct (Hnew _ _ Hin) as [-> ?]. by left.
Qed.

Lemma accounted_run (evs : list event) s log L :
  consistent s L →
  accounted s log →
  accounted (run s evs).1 (log ++ (run s evs).2).
Proof.
  revert s log L. induction evs as [|e evs IH]; intros s log L HI Hacc.
  { cbn. by rewrite app_nil_r. }
  rewrite run_cons. cbn [fst snd]. rewrite app_comm_cons, app_assoc.
  eapply IH; [by apply consistent_step|by eapply accounted_step].
Qed.

(** X15: in every run every handle that was created, a recognition stream
    opened or an ffmpeg command spawned, is at any later time held by the
    registry entry of the connection it was created for, or has been
    released (destroyed or killed): the registry never drops a handle it
    has not released. *)
Theorem no_handle_leaves_unreleased (evs : list event) ws h :
  (ws, h) ∈ created (run initial evs).2 →
  (∃ d, clientStreams (run initial evs).1 !! ws = Some d ∧ h ∈ handles_of d)
  ∨ h ∈ released (run initial evs).2.
Proof.
  apply (accounted_run evs initial [] no_handles consistent_initial).
  by intros ws' h' ?%elem_of_nil.
Qed.


(** * Listeners that return *)

Lemma step_returns s (e : event) :
  (∀ ws, e ≠ message ws (Value JNull)) →
  forallb not_thrown (map Act (step e s).2) = true.
Proof.
  intros Hnull. unfold step.
  destruct (dispatch_thrown (socket e s) e) as [?|[ws ->]]; [done|].
  by destruct (Hnull ws).
Qed.

Lemma silent_quiet_not_thrown acts :
  forallb quiet acts = true →
  forallb not_thrown (map Act acts) = true →
  forallb silent acts = true.
Proof.
  induction acts as [|a acts IH]; [done|]. cbn.
  intros [Ha Hq]%andb_prop [Hn Ht]%andb_prop.
  rewrite (IH Hq Ht). by destruct a.
Qed.

(** ** After teardown *)

(** C2 (what holds of it): once the registry has no entry for a
    connection, an event of that connection other than a message taking the
    [audio_chunk] branch, the message [null] left aside, is without effect
    on the session: its listener returns, the registry and the handles are
    as before, and it only prints or sends.  A message taking the
    [audio_chunk] branch opens a new recognition stream and registers the
    connection again, with that stream. *)
Theorem torn_down_until_next_chunk s (e : event) ws :
  event_conn e = ws →
  clientStreams s !! ws = None →
  (chunk_for ws e = false →
   e ≠ message ws (Value JNull) →
     clientStreams (step e s).1 = clientStreams s
     ∧ fresh (step e s).1 = fresh s
     ∧ forallb silent (step e s).2 = true)
  ∧ (chunk_for ws e = true →
     opened ws (step e s).2 = [fresh s]
     ∧ ∃ p, clientStreams (step e s).1 !! ws =
              Some {| recognizeStream := Some (fresh s);
                      ffmpegProcess := p |}).
Proof.
  intros <- Hnone.
  assert (¬ streaming s (event_conn e)) as Hn.
  { intros (d & r & Hd & _). congruence. }
  split.
  - intros Hchunk Hnull.
    assert (forallb not_thrown (map Act (step e s).2) = true) as Hret.
    { apply step_returns. intros ws ->. by apply Hnull. }
    revert Hret. unfold step.
    rewrite <- (socket_clientStreams s e) in Hnone |- *.
    rewrite <- (socket_fresh s e).
    generalize dependent (socket e s). clear s Hn. intros s Hnone.
    destruct (dispatch_handles s e) as (pre & post & Hpre & Hpost & Hcases).
    destruct Hcases as [(ws0 & m & data & -> & Hm & -> & _ & _)
                       |[(Hstops & ->)|(Hmsg & Hstops & ->)]].
    + cbn in Hchunk. rewrite Hm in Hchunk.
      rewrite bool_decide_eq_true_2 in Hchunk by done.
      by rewrite bool_decide_eq_true_2 in Hchunk by eauto.
    + rewrite (stop_unregistered _ _ Hnone). cbn [fst snd]. intros Hret.
      split_and!; try done. apply silent_quiet_not_thrown; [|done].
      rewrite !forallb_app. cbn. by rewrite Hpre, Hpost.
    + cbn [fst snd]. intros Hret. split_and!; try done.
      by apply silent_quiet_not_thrown.
  - intros Hchunk.
    destruct (step_recognition s e (event_conn e)) as (_ & Ho & _).
    rewrite (Ho Hn), Hchunk. split; [done|].
    destruct e as [|ws m| | | | | | | |]; try done.
    cbn [event_conn] in *. cbn in Hchunk.
    apply andb_prop in Hchunk as [_ [data Hm]%bool_decide_eq_true].
    unfold step. cbn [socket dispatch].
    rewrite (on_message_chunk _ _ _ _ Hm).
    destruct (chunk_idle_observed s ws ws data Hn) as (_ & _ & _ & Hreg).
    eauto.
Qed.

(** ** From the first chunk to the close *)






(** ** Other sessions *)

(** X1: the listener of an event of one connection, the message [null]
    left aside, returns and leaves every other connection alone: in every
    run, the registry entry of another connection is unchanged, nothing is
    opened or spawned for it, nothing is sent to it, and none of the handles
    its entry holds is destroyed or killed. *)
Theorem other_sessions_untouched (evs : list event) (e : event) ws :
  ws ≠ event_conn e →
  (∀ ws', e ≠ message ws' (Value JNull)) →
  (uncaught_TypeError ∉ (step e (run initial evs).1).2)
  ∧ clientStreams (step e (run initial evs).1).1 !! ws =
      clientStreams (run initial evs).1 !! ws
  ∧ opened ws (step e (run initial evs).1).2 = []
  ∧ (∀ h cmd, (ws, h, cmd) ∉ spawned (step e (run initial evs).1).2)
  ∧ (∀ env, (ws, env) ∉ sent (step e (run initial evs).1).2)
  ∧ (∀ d h, clientStreams (run initial evs).1 !! ws = Some d →
            h ∈ handles_of d →
            (h ∉ destroyed (step e (run initial evs).1).2)
            ∧ (h ∉ killed (step e (run initial evs).1).2)).
Proof.
  intros Hne Hnull.
  pose proof (separate_run evs _ separate_initial) as [_ Hdj].
  generalize dependent (run initial evs).1. intros s Hdj.
  destruct (step_ownership s e) as (Hother & Hdes & Hkill & Hsp).
  split_and!.
  - intros Hin. apply (list_elem_of_fmap_2 Act) in Hin.
    by apply (elem_of_forallb _ _ _ (step_returns s e Hnull)) in Hin.
  - by apply Hother.
  - destruct (step_recognition s e ws) as (Hs & Hn & _).
    assert (chunk_for ws e = false) as Hc.
    { destruct e; try done. cbn in *. by rewrite bool_decide_eq_false_2. }
    destruct (streaming_dec s ws) as [?|?]; [by apply Hs|].
    by rewrite Hn, Hc.
  - intros h cmd Hin%Hsp. done.
  - by intros env Hin%sent_to_originator.
  - intros d h Hd Hh. split.
    + intros (d0 & Hd0 & Hr0)%Hdes. apply Hne.
      eapply (Hdj _ _ _ _ h Hd Hd0 Hh). apply handles_of_elem. auto.
    + intros (d0 & Hd0 & Hp0)%Hkill. apply Hne.
      eapply (Hdj _ _ _ _ h Hd Hd0 Hh). apply handles_of_elem. auto.
Qed.

(** ** Stopping a session *)

(** X7: in every run, once the listener of a stopping event has returned
    (the socket closed or failed, the recognition stream reported an error,
    or a result arrived for a socket that is not open), the connection has
    no registry entry and no open recognition stream, and every handle that
    was created for it has been released: the stream destroyed, each command
    killed, whether or not its socket is still open. *)
Theorem stopping_event_releases_everything (evs : list event) (e : event) :
  stops (run initial evs).1 e = true →
  clientStreams (run initial (evs ++ [e])).1 !! event_conn e = None
  ∧ (∀ h, recognizing (live (run initial (evs ++ [e])).2) !! h
          ≠ Some (event_conn e))
  ∧ (∀ h, (event_conn e, h) ∈ created (run initial (evs ++ [e])).2 →
          h ∈ released (run initial (evs ++ [e])).2).
Proof.
  intros Hstops.
  destruct (consistent_run (evs ++ [e]) _ _ consistent_initial) as [_ Hr _ _].
  assert (clientStreams (run initial (evs ++ [e])).1 !! event_conn e = None)
    as Hnone.
  { rewrite run_app. cbn [fst]. rewrite run_cons. cbn [fst run].
    unfold step. rewrite <- stops_socket in Hstops.
    by apply (dispatch_registry (socket e (run initial evs).1) e). }
  split_and!; [done|..].
  - intros h (d & Hd & _)%Hr. congruence.
  - intros h Hin.
    assert (accounted (buffer:=buffer) initial []) as Hinit
      by by intros ws' h' ?%elem_of_nil.
    destruct (accounted_run (evs ++ [e]) initial [] no_handles
                consistent_initial Hinit _ h Hin) as [(d & Hd & _)|?];
      [congruence|done].
Qed.

(** ** Messages never end a session *)

Lemma message_keeps_stream s ws r (m : parsed) :
  m ≠ Value JNull →
  (∃ p, clientStreams s !! ws =
          Some {| recognizeStream := Some r; ffmpegProcess := p |}) →
  (∃ p, clientStreams (step (message ws m) s).1 !! ws =
          Some {| recognizeStream := Some r; ffmpegProcess := p |})
  ∧ forallb keeps_streams (map Act (step (message ws m) s).2) = true
  ∧ forallb not_thrown (map Act (step (message ws m) s).2) = true.
Proof.
  intros Hnull [p Hd].
  assert (forallb not_thrown (map Act (step (message ws m) s).2) = true)
    as Hret.
  { apply step_returns. intros ws' [= _ ->]. done. }
  split_and!; [| |done]; clear Hret; unfold step; cbn [socket dispatch].
  - destruct (chunk_of m) as [data|] eqn:Hm.
    + rewrite (on_message_chunk _ _ _ _ Hm).
      rewrite (audio_chunk_streaming _ _ _ _ _ Hd).
      destruct (Buffer_from data) as [b|]; cbn [fst snd]; [|eauto].
      eexists. cbn. apply lookup_insert_eq.
    + destruct (on_message_other s ws m Hm) as (a & -> & Ha). eauto.
  - destruct (chunk_of m) as [data|] eqn:Hm.
    + rewrite (on_message_chunk _ _ _ _ Hm).
      rewrite (audio_chunk_streaming _ _ _ _ _ Hd).
      by destruct (Buffer_from data) as [b|], p.
    + destruct (on_message_other s ws m Hm) as (a & -> & Ha). cbn.
      by destruct a.
Qed.

(** X12: no sequence of messages from a client, the message [null] left
    aside, ends its session: on a session that is streaming, after any
    number of such messages every listener has returned, the registry entry
    still holds the same recognition stream, and no listener along the way
    destroyed a stream or opened another one. *)
Theorem messages_keep_the_stream s ws r (msgs : list parsed) :
  Forall (λ m, m ≠ Value JNull) msgs →
  (∃ p, clientStreams s !! ws =
          Some {| recognizeStream := Some r; ffmpegProcess := p |}) →
  (∃ p, clientStreams (run s (message ws <$> msgs)).1 !! ws =
          Some {| recognizeStream := Some r; ffmpegProcess := p |})
  ∧ forallb keeps_streams (run s (message ws <$> msgs)).2 = true
  ∧ forallb not_thrown (run s (message ws <$> msgs)).2 = true.
Proof.
  intros Hmsgs. revert s.
  induction Hmsgs as [|m msgs Hm _ IH]; intros s Hs; [by split|].
  rewrite fmap_cons, run_cons. cbn [fst snd].
  destruct (message_keeps_stream s ws r m Hm Hs) as (Hs1 & Hacts & Hret).
  destruct (IH _ Hs1) as (Hs2 & Hlog & Hret').
  split_and!; [done|..]; cbn [forallb keeps_streams not_thrown andb].
  - by rewrite forallb_app, Hacts, Hlog.
  - by rewrite forallb_app, Hret, Hret'.
Qed.

End Properties.

(** * The properties on concrete runs *)

(** The state of the server once the client of [first_chunk] has been torn
    down by a recognition error: its socket is still open. *)
Lemma recognition_failed_state :
  (run node_Buffer_from initial recognition_failed).1 =
    {| clientStreams := ∅; OPEN := {[0]} ∪ ∅; fresh := 2 |}.
Proof. reflexivity. Qed.

(** [null] is valid JSON, and reading its [type] throws outside any [try]:
    the exception leaves the listener. *)
Example null_message_throws (s : server) (ws : conn) :
  step node_Buffer_from (message ws (Value JNull)) s = (s, [uncaught_TypeError]).
Proof. reflexivity. Qed.

(** After a chunk, the failure of its ffmpeg command leaves the command in
    the registry entry. *)
Example ffmpeg_error_keeps_handle :
  clientStreams
    (run node_Buffer_from initial
       (first_chunk ++ [ffmpeg_error 0 1 "ffmpeg exited with code 1" "Invalid data found"])).1
    !! 0
  = Some {| recognizeStream := Some 0; ffmpegProcess := Some 1 |}.
Proof. vm_compute. reflexivity. Qed.

(** ** Malformed input *)

Lemma malformed_message_discarded_witness :
  malformed (Value (JObj [("type", JStr "nonsense")]))
  ∧ ∃ l, step node_Buffer_from
           (message 0 (Value (JObj [("type", JStr "nonsense")]))) initial
         = (initial, [console l])
         ∧ (l = InvalidJson ∨ ∃ type, l = UnknownMessageType type).
Proof.
  assert (malformed (Value (JObj [("type", JStr "nonsense")]))) as Hm.
  { exists (Some (JStr "nonsense")). repeat split. }
  split; [exact Hm|].
  exact (malformed_message_discarded node_Buffer_from initial 0 _ Hm).
Defined.

Lemma chunk_without_data_is_unknown_type_witness :
  truthy' (Some (JStr EmptyString)) = false
  ∧ step node_Buffer_from
      (message 0 (Value (JObj [("type", JStr "audio_chunk"); ("data", JStr EmptyString)])))
      initial
    = (initial, [console (UnknownMessageType (Some (JStr "audio_chunk")))]).
Proof.
  split; [reflexivity|].
  apply (chunk_without_data_is_unknown_type node_Buffer_from initial 0
           (JObj [("type", JStr "audio_chunk"); ("data", JStr EmptyString)])
           (Some (JStr EmptyString))); reflexivity.
Defined.

(** ** The conversion *)

Example first_chunk_ffmpeg_command :
  chunk_of (chunk "AAAA") = Some (JStr "AAAA")
  ∧ ∃ pre h r,
      (step node_Buffer_from (message 0 (chunk "AAAA")) initial).2 =
        pre ++ [spawn 0 h
                  {| input := Base64 "AAAA";
                     inputFormat := "3gp";
                     outputOptions :=
                       ["-acodec pcm_s16le"; "-ar 16000"; "-ac 1"; "-f s16le"];
                     pipe_target := r;
                     pipe_end := false |}]
      ∧ spawned pre = []
      ∧ clientStreams (step node_Buffer_from (message 0 (chunk "AAAA")) initial).1
          !! 0
        = Some {| recognizeStream := Some r; ffmpegProcess := Some h |}.
Proof.
  split; [reflexivity|].
  apply (chunk_sets_up_ffmpeg_command node_Buffer_from initial 0 (chunk "AAAA")
           (JStr "AAAA") (Base64 "AAAA")); reflexivity.
Defined.

(** ** The recognition stream *)


(** ** The registry and the sockets *)


(** ** After teardown *)

(** The session of [recognition_failed] has been torn down, its stream
    destroyed and its entry removed, and the next chunk of the same
    connection opens a new recognition stream, spawns an ffmpeg command and
    registers the connection again. *)
Lemma chunk_after_teardown_reopens :
  Act (destroy 0) ∈ (run node_Buffer_from initial recognition_failed).2
  ∧ clientStreams (run node_Buffer_from initial recognition_failed).1 !! 0 = None
  ∧ opened 0
      (step node_Buffer_from (message 0 (chunk "BBBB"))
         (run node_Buffer_from initial recognition_failed).1).2 = [2]
  ∧ fst <$> spawned
      (step node_Buffer_from (message 0 (chunk "BBBB"))
         (run node_Buffer_from initial recognition_failed).1).2 = [(0, 3)]
  ∧ clientStreams
      (step node_Buffer_from (message 0 (chunk "BBBB"))
         (run node_Buffer_from initial recognition_failed).1).1 !! 0
    = Some {| recognizeStream := Some 2; ffmpegProcess := Some 3 |}.
Proof.
  split_and!; try reflexivity.
  apply list_elem_of_In. cbn.
  repeat first [left; reflexivity | right].
Qed.

(** ** Relaying transcripts *)

Lemma transcripts_in_emission_order_witness :
  transcripts_to 0
    (run node_Buffer_from (run node_Buffer_from initial first_chunk).1
       [recognize_data 0 partial_result; message 0 (chunk "BBBB");
        recognize_data 0 final_result]).2
  = [Transcript "hel" false; Transcript "hello world" true].
Proof.
  destruct (transcripts_in_emission_order node_Buffer_from
              [recognize_data 0 partial_result; message 0 (chunk "BBBB");
               recognize_data 0 final_result]
              (run node_Buffer_from initial first_chunk).1 0) as [_ Heq].
  rewrite Heq; [reflexivity| |reflexivity].
  apply (bool_decide_unpack _). vm_compute. exact I.
Defined.

(** ** The further properties *)

Lemma sends_only_to_open_originator_witness :
  (0, Transcript "hel" false) ∈
    sent (step node_Buffer_from (recognize_data 0 partial_result)
            (run node_Buffer_from initial first_chunk).1).2
  ∧ 0 ∈ OPEN (run node_Buffer_from initial first_chunk).1.
Proof.
  assert ((0, Transcript "hel" false) ∈
            sent (step node_Buffer_from (recognize_data 0 partial_result)
                    (run node_Buffer_from initial first_chunk).1).2) as Hin.
  { vm_compute. apply list_elem_of_here. }
  split; [exact Hin|].
  exact (proj1 (proj2 (sends_only_to_open_originator node_Buffer_from
                         _ _ _ _ Hin))).
Defined.

Lemma throws_only_on_null_message_witness :
  uncaught_TypeError ∈
    (step node_Buffer_from (message 0 (Value JNull)) initial).2
  ∧ step node_Buffer_from (message 0 (Value JNull)) initial
    = (initial, [uncaught_TypeError]).
Proof.
  destruct (throws_only_on_null_message node_Buffer_from initial
              (message 0 (Value JNull))) as [Hiff Hstate].
  assert (uncaught_TypeError ∈
            (step node_Buffer_from (message 0 (Value JNull)) initial).2) as Hin.
  { apply Hiff. by exists 0. }
  split; [exact Hin|exact (Hstate Hin)].
Defined.

Lemma failed_to_get_stream_unreachable_witness :
  clientStreams (run node_Buffer_from initial first_chunk).1 !! 0
  = Some {| recognizeStream := Some 0; ffmpegProcess := Some 1 |}
  ∧ is_Some (recognizeStream
               {| recognizeStream := Some 0; ffmpegProcess := Some 1 |}).
Proof.
  assert (clientStreams (run node_Buffer_from initial first_chunk).1 !! 0
          = Some {| recognizeStream := Some 0; ffmpegProcess := Some 1 |})
    as Hd by (vm_compute; reflexivity).
  split; [exact Hd|].
  exact (proj2 (failed_to_get_stream_unreachable node_Buffer_from first_chunk
                  initial (connection 0)) _ _ Hd).
Defined.

Lemma undecodable_chunk_witness :
  chunk_of chunk_true = Some (JBool true)
  ∧ node_Buffer_from (JBool true) = None
  ∧ spawned (step node_Buffer_from (message 0 chunk_true) initial).2 = []
  ∧ opened 0 (step node_Buffer_from (message 0 chunk_true) initial).2 = [0].
Proof.
  destruct (undecodable_chunk node_Buffer_from initial 0 chunk_true
              (JBool true) eq_refl eq_refl) as (_ & Hsp & _ & _ & Hidle).
  split_and!; [reflexivity|reflexivity|exact Hsp|].
  apply Hidle. intros (d & r & Hd & _). cbn in Hd. by rewrite lookup_empty in Hd.
Defined.

Lemma releases_only_own_handles_witness :
  1 ∈ killed (step node_Buffer_from (close 0 1000 None)
                (run node_Buffer_from initial first_chunk).1).2
  ∧ ∃ cmd, Act (spawn 0 1 cmd) ∈ (run node_Buffer_from initial first_chunk).2.
Proof.
  assert (1 ∈ killed (step node_Buffer_from (close 0 1000 None)
                        (run node_Buffer_from initial first_chunk).1).2) as Hin.
  { vm_compute. apply list_elem_of_here. }
  split; [exact Hin|].
  exact (proj2 (releases_only_own_handles node_Buffer_from first_chunk
                  (close 0 1000 None) 1) Hin).
Defined.

Lemma empty_result_ignored_witness :
  envelope_of {| results := [] |} = None
  ∧ step node_Buffer_from (recognize_data 0 {| results := [] |}) initial
    = (initial, []).
Proof.
  split; [reflexivity|].
  exact (empty_result_ignored node_Buffer_from initial 0 {| results := [] |}
           eq_refl).
Defined.

Lemma end_audio_keeps_the_session_witness :
  step node_Buffer_from (message 0 end_audio)
    (run node_Buffer_from initial first_chunk).1
  = ((run node_Buffer_from initial first_chunk).1, [console ReceivedEndAudio]).
Proof.
  exact (end_audio_keeps_the_session node_Buffer_from _ 0
           (JObj [("type", JStr "end_audio")]) eq_refl).
Defined.

Lemma finished_command_still_killed_witness :
  clientStreams (run node_Buffer_from initial first_chunk).1 !! 0
  = Some {| recognizeStream := Some 0; ffmpegProcess := Some 1 |}
  ∧ killed
      (step node_Buffer_from (message 0 (chunk "BBBB"))
         (step node_Buffer_from (ffmpeg_end 0 1)
            (run node_Buffer_from initial first_chunk).1).1).2 = [1].
Proof.
  assert (clientStreams (run node_Buffer_from initial first_chunk).1 !! 0
          = Some {| recognizeStream := Some 0; ffmpegProcess := Some 1 |})
    as Hd by (vm_compute; reflexivity).
  split; [exact Hd|].
  exact (proj1 (proj2 (proj2
           (finished_command_still_killed node_Buffer_from _ no_handles 0 0 1
              (chunk "BBBB") (JStr "BBBB") (Base64 "BBBB") Hd eq_refl eq_refl)))).
Defined.

Lemma no_handle_released_twice_witness :
  1 ∈ released
        (run node_Buffer_from initial (first_chunk ++ [message 0 (chunk "BBBB")])).2
  ∧ clientStreams
      (run node_Buffer_from initial (first_chunk ++ [message 0 (chunk "BBBB")])).1
      !! 0
    = Some {| recognizeStream := Some 0; ffmpegProcess := Some 2 |}
  ∧ 1 ∉ handles_of {| recognizeStream := Some 0; ffmpegProcess := Some 2 |}.
Proof.
  assert (1 ∈ released
                (run node_Buffer_from initial
                   (first_chunk ++ [message 0 (chunk "BBBB")])).2) as Hin.
  { vm_compute. apply list_elem_of_here. }
  assert (clientStreams
            (run node_Buffer_from initial
               (first_chunk ++ [message 0 (chunk "BBBB")])).1 !! 0
          = Some {| recognizeStream := Some 0; ffmpegProcess := Some 2 |})
    as Hd by (vm_compute; reflexivity).
  split_and!; [exact Hin|exact Hd|].
  exact (proj2 (no_handle_released_twice node_Buffer_from
                  (first_chunk ++ [message 0 (chunk "BBBB")])) _ _ _ Hin Hd).
Defined.

Lemma no_handle_leaves_unreleased_witness :
  (0, 1) ∈ created (run node_Buffer_from initial recognition_failed).2
  ∧ ((∃ d, clientStreams (run node_Buffer_from initial recognition_failed).1 !! 0
           = Some d ∧ 1 ∈ handles_of d)
     ∨ 1 ∈ released (run node_Buffer_from initial recognition_failed).2).
Proof.
  assert ((0, 1) ∈ created (run node_Buffer_from initial recognition_failed).2)
    as Hin.
  { vm_compute. apply list_elem_of_further, list_elem_of_here. }
  split; [exact Hin|].
  exact (no_handle_leaves_unreleased node_Buffer_from recognition_failed 0 1 Hin).
Defined.

(** ** Sessions from the first chunk to the close *)

Lemma torn_down_until_next_chunk_witness :
  clientStreams (run node_Buffer_from initial recognition_failed).1 !! 0 = None
  ∧ forallb silent
      (step node_Buffer_from (message 0 end_audio)
         (run node_Buffer_from initial recognition_failed).1).2 = true
  ∧ opened 0
      (step node_Buffer_from (message 0 (chunk "BBBB"))
         (run node_Buffer_from initial recognition_failed).1).2 = [2]
  ∧ ∃ p, clientStreams
           (step node_Buffer_from (message 0 (chunk "BBBB"))
              (run node_Buffer_from initial recognition_failed).1).1 !! 0
         = Some {| recognizeStream := Some 2; ffmpegProcess := p |}.
Proof.
  assert (clientStreams (run node_Buffer_from initial recognition_failed).1 !! 0
          = None) as Hnone by reflexivity.
  split; [exact Hnone|]. split.
  - exact (proj2 (proj2
      (proj1 (torn_down_until_next_chunk node_Buffer_from _
                (message 0 end_audio) 0 eq_refl Hnone)
         eq_refl ltac:(discriminate)))).
  - exact (proj2 (torn_down_until_next_chunk node_Buffer_from _
                    (message 0 (chunk "BBBB")) 0 eq_refl Hnone) eq_refl).
Defined.


Lemma other_sessions_untouched_witness :
  1 ≠ event_conn (close 0 1000 None)
  ∧ clientStreams
      (step node_Buffer_from (close 0 1000 None)
         (run node_Buffer_from initial two_clients).1).1 !! 1
    = clientStreams (run node_Buffer_from initial two_clients).1 !! 1
  ∧ opened 1
      (step node_Buffer_from (close 0 1000 None)
         (run node_Buffer_from initial two_clients).1).2 = [].
Proof.
  assert (1 ≠ event_conn (close 0 1000 None)) as Hne
    by discriminate.
  split; [exact Hne|].
  destruct (other_sessions_untouched node_Buffer_from two_clients
              (close 0 1000 None) 1 Hne ltac:(discriminate))
    as (_ & Hentry & Hopened & _).
  exact (conj Hentry Hopened).
Defined.

Lemma stopping_event_releases_everything_witness :
  stops (run node_Buffer_from initial first_chunk).1 (close 0 1000 None) = true
  ∧ clientStreams
      (run node_Buffer_from initial (first_chunk ++ [close 0 1000 None])).1 !! 0
    = None
  ∧ (∀ h, (0, h) ∈ created
            (run node_Buffer_from initial (first_chunk ++ [close 0 1000 None])).2 →
          h ∈ released
            (run node_Buffer_from initial (first_chunk ++ [close 0 1000 None])).2).
Proof.
  split; [reflexivity|].
  destruct (stopping_event_releases_everything node_Buffer_from first_chunk
              (close 0 1000 None) eq_refl) as (Hentry & _ & Hreleased).
  exact (conj Hentry Hreleased).
Defined.

Lemma messages_keep_the_stream_witness :
  Forall (λ m, m ≠ Value JNull) [chunk "BBBB"; end_audio; SyntaxError]
  ∧ ∃ p, clientStreams
           (run node_Buffer_from (run node_Buffer_from initial first_chunk).1
              (message 0 <$> [chunk "BBBB"; end_audio; SyntaxError])).1 !! 0
         = Some {| recognizeStream := Some 0; ffmpegProcess := p |}.
Proof.
  assert (Forall (λ m : parsed, m ≠ Value JNull)
            [chunk "BBBB"; end_audio; SyntaxError]) as Hmsgs
    by (repeat constructor; discriminate).
  split; [exact Hmsgs|].
  exact (proj1 (messages_keep_the_stream node_Buffer_from
                  (run node_Buffer_from initial first_chunk).1 0 0 _ Hmsgs
                  (ex_intro _ (Some 1) eq_refl))).
Defined.


(** ** Two commands of one connection *)

(** C5 (where the code departs from it): on [overlapping_chunks] the second
    chunk arrives while the command of the first one has no process yet.
    The listener calls [kill] on command 1 before it sets up command 2, and
    the call finds no process to signal; then both commands start, and two
    ffmpeg processes of connection 0 run together. *)
Theorem overlapping_chunks_run_two_transcoders :
  starting (processes_of (run node_Buffer_from initial first_chunk).2) !! 1
    = Some 0
  ∧ killed
      (step node_Buffer_from (message 0 (chunk "BBBB"))
         (run node_Buffer_from initial first_chunk).1).2 = [1]
  ∧ fst <$> spawned
      (step node_Buffer_from (message 0 (chunk "BBBB"))
         (run node_Buffer_from initial first_chunk).1).2 = [(0, 2)]
  ∧ running (processes_of (run node_Buffer_from initial overlapping_chunks).2)
      !! 1 = Some 0
  ∧ running (processes_of (run node_Buffer_from initial overlapping_chunks).2)
      !! 2 = Some 0.
Proof. split_and!; vm_compute; reflexivity. Qed.
